(** * Market advisor page: mock quotes, detailed analysis and query responder

    A shallow embedding of [app/page.tsx].

    - JavaScript numbers are IEEE 754 binary64 values: [spec_float] of the
      standard library with [prec = 53] and [emax = 1024], rounded to nearest
      even by [SFadd], [SFmul], [SFdiv].
    - JavaScript strings are [string]s whose characters are read as the code
      units U+0000 to U+00FF.
    - [Math.random] is a sequence of draws ([nat -> number]) together with
      the index of the next draw.
    - React state is an explicit record; a handler maps the state of the
      render it was created in to the state after its updates are applied. *)

From Stdlib Require Import ZArith NArith List String Ascii Bool Lia.
From Stdlib Require Import DecimalString SpecFloat Reals Lra.
Import ListNotations.

Open Scope string_scope.
Open Scope Z_scope.

(* ================================================================== *)
(** * Numbers *)

Definition prec : Z := 53.
Definition emax : Z := 1024.
Definition number : Type := spec_float.

Declare Scope num_scope.
Delimit Scope num_scope with num.
Notation "x +! y" := (SFadd prec emax x y) (at level 50, left associativity) : num_scope.
Notation "x -! y" := (SFsub prec emax x y) (at level 50, left associativity) : num_scope.
Notation "x *! y" := (SFmul prec emax x y) (at level 40, left associativity) : num_scope.
Notation "x /! y" := (SFdiv prec emax x y) (at level 40, left associativity) : num_scope.

(** An integer literal (exact below 2^53). *)
Definition of_Z (n : Z) : number := binary_normalize prec emax n 0 false.

(** A decimal literal [m * 10^-k]: the binary64 value nearest to it, which
    is the correctly rounded quotient of the two exact integers. *)
Definition decimal (m : Z) (k : Z) : number := (of_Z m /! of_Z (10 ^ k))%num.

Definition NaN : number := S754_nan.

Definition is_finite (x : number) : bool :=
  match x with S754_finite _ _ _ | S754_zero _ => true | _ => false end.

Definition finite_valid (x : number) : bool :=
  is_finite x && valid_binary prec emax x.

(** ToBoolean on a number: [0], [-0] and [NaN] are falsy. *)
Definition truthy (x : number) : bool :=
  match x with S754_zero _ | S754_nan => false | _ => true end.

(** [Math.floor]. *)
Definition Math_floor (x : number) : number :=
  match x with
  | S754_finite s m e =>
      if 0 <=? e then x
      else
        let q := Zpos m / 2 ^ (- e) in
        if s then
          (if Zpos m mod 2 ^ (- e) =? 0 then of_Z (- q) else of_Z (- (q + 1)))
        else of_Z q
  | _ => x
  end.

(** What [Math.random] may return: a number with positive sign, at least
    [+0] and less than [1]. *)
Definition is_draw (r : number) : bool :=
  match r with
  | S754_zero false => true
  | S754_finite false m e => SpecFloat.bounded prec emax m e && SFltb r (of_Z 1)
  | _ => false
  end.

(** The integer a finite number is equal to, if it is one. *)
Definition to_Z (x : number) : option Z :=
  match x with
  | S754_zero _ => Some 0
  | S754_finite s m e =>
      if 0 <=? e then Some (cond_Zopp s (Zpos m * 2 ^ e))
      else if Zpos m mod 2 ^ (- e) =? 0 then Some (cond_Zopp s (Zpos m / 2 ^ (- e)))
      else None
  | _ => None
  end.

(** The real number a finite binary64 value stands for. *)
Definition SF2R (x : number) : R :=
  match x with
  | S754_finite s m e => (IZR (cond_Zopp s (Zpos m)) * powerRZ 2 e)%R
  | _ => 0%R
  end.

(* ================================================================== *)
(** * Strings *)

Definition nl : string := String (ascii_of_nat 10) EmptyString.

Definition lower_char (c : ascii) : ascii :=
  let n := nat_of_ascii c in
  if ((65 <=? n) && (n <=? 90) ||
      (192 <=? n) && (n <=? 222) && negb (n =? 215))%nat
  then ascii_of_nat (n + 32) else c.

(** [String.prototype.toLowerCase] on code units up to U+00FF. *)
Fixpoint toLowerCase (s : string) : string :=
  match s with
  | EmptyString => EmptyString
  | String c s' => String (lower_char c) (toLowerCase s')
  end.

(** [String.prototype.includes]: [t] occurs in [s] at some position. *)
Fixpoint includes (s t : string) : bool :=
  prefix t s ||
  match s with
  | EmptyString => false
  | String _ s' => includes s' t
  end.

(** White space and line terminators among the code units up to U+00FF. *)
Definition is_whitespace (c : ascii) : bool :=
  let n := nat_of_ascii c in
  ((9 <=? n) && (n <=? 13) || (n =? 32) || (n =? 160))%nat.

Fixpoint trimStart (s : string) : string :=
  match s with
  | EmptyString => EmptyString
  | String c s' => if is_whitespace c then trimStart s' else s
  end.

Fixpoint trimEnd (s : string) : string :=
  match s with
  | EmptyString => EmptyString
  | String c s' =>
      match trimEnd s' with
      | EmptyString => if is_whitespace c then EmptyString else String c EmptyString
      | t => String c t
      end
  end.

(** [String.prototype.trim]. *)
Definition trim (s : string) : string := trimEnd (trimStart s).

Definition is_empty (s : string) : bool :=
  match s with EmptyString => true | _ => false end.

(* ================================================================== *)
(** * Number formatting *)

Fixpoint zeros (n : nat) : string :=
  match n with O => EmptyString | S n' => String "0" (zeros n') end.

Definition digits_of (n : N) : string := NilZero.string_of_uint (N.to_uint n).

(** Steps 11.a to 11.c of [Number.prototype.toFixed]: the integer [n]
    printed with [f] digits after the point. *)
Definition fixed_digits (n : N) (f : nat) : string :=
  let m := digits_of n in
  let m := if (String.length m <=? f)%nat then zeros (f + 1 - String.length m) ++ m else m in
  let k := String.length m in
  match f with
  | O => m
  | _ => substring 0 (k - f) m ++ "." ++ substring (k - f) f m
  end.

(** The integer [n] for which [n / 10^f - m * 2^e] is closest to zero, the
    larger one when there are two. *)
Definition nearest_scaled (m : positive) (e : Z) (f : nat) : Z :=
  let a := Zpos m * 10 ^ Z.of_nat f in
  if 0 <=? e then a * 2 ^ e else (2 * a + 2 ^ (- e)) / 2 ^ (- e + 1).

Definition at_least_1e21 (m : positive) (e : Z) : bool :=
  if 0 <=? e then 10 ^ 21 <=? Zpos m * 2 ^ e else 10 ^ 21 * 2 ^ (- e) <=? Zpos m.

(** What the host provides and the page relies on. *)
Record Host : Type :=
  { (* [Number::toString], which [toFixed] falls back to from [10^21] on *)
    Number_toString : number -> string;
    (* [Number.prototype.toLocaleString] in the locale of the host *)
    toLocaleString : number -> string;
    (* the text a member of [Object.prototype] converts to in a template
       literal *)
    member_text : string -> string }.

(** [Number.prototype.toFixed]. *)
Definition toFixed (h : Host) (x : number) (f : nat) : string :=
  match x with
  | S754_nan => "NaN"
  | S754_infinity false => "Infinity"
  | S754_infinity true => "-Infinity"
  | S754_zero _ => fixed_digits 0 f
  | S754_finite s m e =>
      (if s then "-" else "") ++
      (if at_least_1e21 m e then Number_toString h (S754_finite false m e)
       else fixed_digits (Z.to_N (nearest_scaled m e f)) f)
  end.

(* ================================================================== *)
(** * Object literals read through a string key *)

(** Names that every object literal inherits from [Object.prototype]. *)
Definition Object_prototype : list string :=
  [ "constructor"; "__defineGetter__"; "__defineSetter__"; "hasOwnProperty";
    "__lookupGetter__"; "__lookupSetter__"; "isPrototypeOf";
    "propertyIsEnumerable"; "toString"; "valueOf"; "__proto__";
    "toLocaleString" ].

Definition inherited (key : string) : bool :=
  existsb (String.eqb key) Object_prototype.

(** The outcome of [o[key]]. *)
Inductive property (V : Type) : Type :=
| Own (v : V)          (* an own property of the literal *)
| Inherited            (* a member of [Object.prototype]: an object *)
| Absent.              (* [undefined] *)
Arguments Own {V} v.
Arguments Inherited {V}.
Arguments Absent {V}.

Fixpoint own {V : Type} (o : list (string * V)) (key : string) : option V :=
  match o with
  | [] => None
  | (k, v) :: o' => if String.eqb key k then Some v else own o' key
  end.

Definition lookup {V : Type} (o : list (string * V)) (key : string) : property V :=
  match own o key with
  | Some v => Own v
  | None => if inherited key then Inherited else Absent
  end.

(** [Object.entries]: the own properties in insertion order (no key of
    these literals is an array index). *)
Definition Object_entries {V : Type} (o : list (string * V)) : list (string * V) := o.

(* ================================================================== *)
(** * The page *)

Inductive Role : Type := user | assistant.

Record Message : Type := { content : string; role : Role }.

Record MarketData : Type :=
  { symbol : string; price : number; change : number; changePercent : number }.

Definition WATCHED_SYMBOLS : list string :=
  [ "^GSPC"; "^DJI"; "^IXIC"; "GC=F"; "BTC-USD" ].

Definition SYMBOL_NAMES : list (string * string) :=
  [ ("^GSPC", "S&P 500"); ("^DJI", "Dow Jones"); ("^IXIC", "NASDAQ");
    ("GC=F", "Gold"); ("BTC-USD", "Bitcoin") ].

(** The literal indexed at the top of [getMockMarketData]. *)
Definition basePrices : list (string * number) :=
  [ ("^GSPC", of_Z 4500); ("^DJI", of_Z 35000); ("^IXIC", of_Z 14000);
    ("GC=F", of_Z 1900); ("BTC-USD", of_Z 45000) ].

(** ** Randomness *)

(** A computation that calls [Math.random]: from the sequence of draws and
    the index of the next one to a result and the index after it. *)
Definition Rand (A : Type) : Type := (nat -> number) -> nat -> A * nat.

Definition ret {A : Type} (a : A) : Rand A := fun _ k => (a, k).

Definition bind {A B : Type} (c : Rand A) (f : A -> Rand B) : Rand B :=
  fun rng k => let (a, k') := c rng k in f a rng k'.

Definition Math_random : Rand number := fun rng k => (rng k, S k).

Notation "x <- c ;; f" := (bind c (fun x => f))
  (at level 61, c at next level, right associativity).

(** ** [getMockMarketData] *)

(** What [getMockMarketData] returns. When [basePrice] is a member of
    [Object.prototype], [basePrice * 0.02] is [NaN] and [basePrice + change]
    concatenates strings: the object returned has a string for [price] and
    is no [MarketData]. *)
Inductive Returned : Type :=
| Quote (data : MarketData)
| NotMarketData.

Definition getMockMarketData (symbol : string) : Rand Returned :=
  match lookup basePrices symbol with
  | Inherited => _ <- Math_random ;; ret NotMarketData
  | p =>
      let basePrice :=
        match p with
        | Own v => if truthy v then v else of_Z 100
        | _ => of_Z 100
        end in
      r <- Math_random ;;
      let change := ((r *! of_Z 2 -! of_Z 1) *! (basePrice *! decimal 2 2))%num in
      let changePercent := ((change /! basePrice) *! of_Z 100)%num in
      ret (Quote {| symbol := symbol;
                    price := (basePrice +! change)%num;
                    change := change;
                    changePercent := changePercent |})
  end.

(** ** [getMockDetailedAnalysis] *)

Inductive Completion (A : Type) : Type :=
| Normal (a : A)
| TypeError.          (* [data.price.toFixed is not a function] *)
Arguments Normal {A} a.
Arguments TypeError {A}.

Definition fixed2 (h : Host) (x : number) : string := toFixed h x 2.

Definition volume_of (r : number) : number :=
  (Math_floor (r *! of_Z 1000000) +! of_Z 500000)%num.

Definition stats_of (h : Host) (data : MarketData) (volume : number) : list string :=
  let marketCap := (price data *! volume)%num in
  let dayLow := (price data *! decimal 98 2)%num in
  let dayHigh := (price data *! decimal 102 2)%num in
  let weekLow := (price data *! decimal 9 1)%num in
  let weekHigh := (price data *! decimal 11 1)%num in
  [ "Current Price: $" ++ fixed2 h (price data);
    "Day Range: $" ++ fixed2 h dayLow ++ " - $" ++ fixed2 h dayHigh;
    "52 Week Range: $" ++ fixed2 h weekLow ++ " - $" ++ fixed2 h weekHigh;
    "Volume: " ++ toLocaleString h volume;
    "Market Cap: $" ++ fixed2 h (marketCap /! of_Z 1000000000)%num ++ "B" ].

(** [SYMBOL_NAMES[symbol] || symbol] inside the template literal. *)
Definition display_name (h : Host) (symbol : string) : string :=
  match lookup SYMBOL_NAMES symbol with
  | Own name => if is_empty name then symbol else name
  | Inherited => member_text h symbol
  | Absent => symbol
  end.

Definition getMockDetailedAnalysis (h : Host) (symbol : string) : Rand (Completion string) :=
  data <- getMockMarketData symbol ;;
  r <- Math_random ;;
  let volume := volume_of r in
  match data with
  | NotMarketData => ret TypeError
  | Quote data =>
      let stats := String.concat nl (stats_of h data volume) in
      ret (Normal ("Analysis for " ++ display_name h symbol ++ ":" ++ nl ++ stats))
  end.

(** ** The component state and its handlers *)

Record State : Type :=
  { messages : list Message;
    input : string;
    marketData : list Returned;
    loading : bool }.

Definition greeting : string :=
  "Hello! I'm your market advisor. I can provide market data and analysis for major indices and assets. Try asking about the S&P 500, Dow Jones, NASDAQ, Gold, or Bitcoin!".

Definition initial : State :=
  {| messages := [ {| content := greeting; role := assistant |} ];
     input := "";
     marketData := [];
     loading := false |}.

Fixpoint mapM {A B : Type} (f : A -> Rand B) (l : list A) : Rand (list B) :=
  match l with
  | [] => ret []
  | a :: l' => b <- f a ;; bs <- mapM f l' ;; ret (b :: bs)
  end.

Definition updateMarketData (st : State) : Rand State :=
  data <- mapM getMockMarketData WATCHED_SYMBOLS ;;
  ret {| messages := messages st;
         input := input st;
         marketData := data;
         loading := false |}.

Definition fallback : string :=
  "I can provide detailed analysis for S&P 500, Dow Jones, NASDAQ, Gold, and Bitcoin. Please ask about one of these markets!".

(** The [for ... of] loop of [handleSubmit]: the first entry whose
    lowercased name occurs in the input sets [response] and breaks. *)
Fixpoint scan (h : Host) (entries : list (string * string)) (lowercaseInput : string)
  : Rand (Completion string) :=
  match entries with
  | [] => ret (Normal "")
  | (symbol, name) :: rest =>
      if includes lowercaseInput (toLowerCase name)
      then getMockDetailedAnalysis h symbol
      else scan h rest lowercaseInput
  end.

(** Lines 104 to 117 of [handleSubmit]: the response to an input text. *)
Definition respond (h : Host) (text : string) : Rand (Completion string) :=
  let lowercaseInput := toLowerCase text in
  response <- scan h (Object_entries SYMBOL_NAMES) lowercaseInput ;;
  match response with
  | TypeError => ret TypeError
  | Normal response => ret (Normal (if is_empty response then fallback else response))
  end.

Definition handleSubmit (h : Host) (st : State) : Rand State :=
  if is_empty (trim (input st)) then ret st
  else
    let userMessage := {| content := input st; role := user |} in
    let st1 := {| messages := messages st ++ [userMessage];
                  input := "";
                  marketData := marketData st;
                  loading := loading st |} in
    response <- respond h (input st) ;;
    match response with
    | TypeError => ret st1
    | Normal response =>
        let botMessage := {| content := response; role := assistant |} in
        ret {| messages := messages st1 ++ [botMessage];
               input := input st1;
               marketData := marketData st1;
               loading := loading st1 |}
    end.

(** [onChange] of the input field. *)
Definition setInput (value : string) (st : State) : State :=
  {| messages := messages st;
     input := value;
     marketData := marketData st;
     loading := loading st |}.

(** What can happen to the mounted component. *)
Inductive Event : Type :=
| Submit                    (* the form is submitted *)
| Refresh                   (* the timer fires or the button is clicked *)
| Change (value : string).  (* the input field is edited *)

Definition step (h : Host) (ev : Event) (st : State) : Rand State :=
  match ev with
  | Submit => handleSubmit h st
  | Refresh => updateMarketData st
  | Change value => ret (setInput value st)
  end.

Fixpoint run (h : Host) (evs : list Event) (st : State) : Rand State :=
  match evs with
  | [] => ret st
  | ev :: evs' => st' <- step h ev st ;; run h evs' st'
  end.


(** ** The market cards *)

(** What a card of the grid shows: lines 153 to 162. The name is absent
    when [SYMBOL_NAMES[data.symbol]] is no string. *)
Record Card : Type :=
  { card_name : option string;
    card_price : string;
    card_class : string;
    card_change : string }.

(** [x >= 0] on a number: false on [NaN]. *)
Definition ge_zero (x : number) : bool := SFleb (of_Z 0) x.

Definition render_card (h : Host) (r : Returned) : Completion Card :=
  match r with
  | NotMarketData => TypeError
  | Quote data =>
      Normal
        {| card_name :=
             match lookup SYMBOL_NAMES (symbol data) with
             | Own name => Some name
             | _ => None
             end;
           card_price := "$" ++ toFixed h (price data) 2;
           card_class :=
             "text-sm " ++
             (if ge_zero (change data) then "text-green-500" else "text-red-500");
           card_change :=
             (if ge_zero (change data) then "+" else "") ++
             toFixed h (change data) 2 ++ " (" ++
             toFixed h (changePercent data) 2 ++ "%)" |}
  end.

(** The base price the specification speaks of: the constant of the table,
    [100] for any other symbol. *)
Definition basePrice (symbol : string) : number :=
  match own basePrices symbol with
  | Some v => v
  | None => of_Z 100
  end.

(* ================================================================== *)
(** * Notions used in the statements *)

(** [t] is a substring of [s]. *)
Definition occurs (t s : string) : Prop := exists a b : string, s = a ++ t ++ b.

Fixpoint all_whitespace (s : string) : bool :=
  match s with
  | EmptyString => true
  | String c s' => is_whitespace c && all_whitespace s'
  end.

(** An entry of [SYMBOL_NAMES] whose lowercased name occurs in the
    lowercased text. *)
Definition matches (text : string) (entry : string * string) : bool :=
  includes (toLowerCase text) (toLowerCase (snd entry)).

(** The symbol the responder answers about: the first matching entry in
    table order. *)
Definition selected (text : string) : option string :=
  option_map fst (find (matches text) SYMBOL_NAMES).

Definition quote_symbol (r : Returned) : option string :=
  match r with Quote d => Some (symbol d) | NotMarketData => None end.

(** A list of exchanges: a user message followed by an assistant message,
    any number of times. *)
Fixpoint exchanges (l : list Message) : bool :=
  match l with
  | [] => true
  | u :: l1 =>
      match l1 with
      | [] => false
      | a :: l2 =>
          match role u, role a with
          | user, assistant => exchanges l2
          | _, _ => false
          end
      end
  end.

(** A snapshot with one Quote per watched symbol, in the order of the
    watch-list. *)
Definition complete (snapshot : list Returned) : Prop :=
  map quote_symbol snapshot = map Some WATCHED_SYMBOLS.

(** A host to run the examples with. *)
Definition sample_host : Host :=
  {| Number_toString := fun _ => "1e+21";
     toLocaleString := fun x =>
       match to_Z x with Some n => digits_of (Z.to_N n) | None => "" end;
     member_text := fun m => "function " ++ m ++ "() { [native code] }" |}.
Definition sample_rng (n : nat) : number :=
  match n with O => decimal 5 1 | _ => decimal 123456 6 end.

(** ** Notions of the binary64 theory *)

(** The real value of a mantissa and an exponent. *)
Definition F2R (m e : Z) : R := (IZR m * powerRZ 2 e)%R.

(** The exponent of a positive mantissa is the one the format gives it. *)
Definition canon (m : positive) (e : Z) : Prop :=
  fexp prec emax (Zpos (digits2_pos m) + e) = e.

(** Where a remainder lies with respect to the half-way point. *)
Definition loc_rem (rem half : Z) : location :=
  if rem =? 0 then loc_Exact else loc_Inexact (rem ?= half).

(** The number [binary_round_aux] builds from a rounded mantissa. *)
Definition round_result (sx : bool) (m1 e1 : Z) : number :=
  if m1 =? 2 ^ 53 then
    if e1 + 1 <=? emax - prec then S754_finite sx (2 ^ 52)%positive (e1 + 1)
    else S754_infinity sx
  else
    match m1 with
    | Zpos m => if e1 <=? emax - prec then S754_finite sx m e1 else S754_infinity sx
    | _ => S754_zero sx
    end.

(** [M * 2^E] lies between [q] and [q + 1] units of [2^e1], the canonical
    exponent, and [m1] is the nearer of the two. *)
Definition rounds (M : positive) (E q m1 e1 : Z) : Prop :=
  e1 = fexp prec emax (Zpos (digits2_pos M) + E) /\
  0 <= q < 2 ^ 53 /\ (e1 = -1074 \/ 2 ^ 52 <= q) /\ (m1 = q \/ m1 = q + 1) /\
  (F2R q e1 <= F2R (Zpos M) E < F2R (q + 1) e1)%R /\
  (2 * (F2R m1 e1 - F2R (Zpos M) E) <= powerRZ 2 e1)%R /\
  (2 * (F2R (Zpos M) E - F2R m1 e1) <= powerRZ 2 e1)%R.

(** [res] is a correctly rounded [x]: it stays within any two numbers that
    enclose [x], and no number is nearer to [x]. *)
Definition rounded (x : R) (res : number) : Prop :=
  (forall A B, finite_valid A = true -> finite_valid B = true ->
               (SF2R A <= x <= SF2R B)%R ->
               finite_valid res = true /\ (SF2R A <= SF2R res <= SF2R B)%R) /\
  (is_finite res = true ->
   finite_valid res = true /\
   forall C, finite_valid C = true -> (Rabs (SF2R res - x) <= Rabs (SF2R C - x))%R).

Open Scope num_scope.

(* ================================================================== *)
(** * Binary64 arithmetic: correct rounding *)

(** ** Powers of two *)
Lemma pow2_pos e : (0 < powerRZ 2 e)%R.
Proof. apply powerRZ_lt; lra. Qed.

Lemma pow2_add a b : powerRZ 2 (a + b) = (powerRZ 2 a * powerRZ 2 b)%R.
Proof. apply powerRZ_add; lra. Qed.

Lemma pow2_IZR n : 0 <= n -> powerRZ 2 n = IZR (2 ^ n).
Proof.
  intros Hn. rewrite <- (Z2Nat.id n Hn) at 1.
  rewrite <- pow_powerRZ, pow_IZR, Z2Nat.id by assumption. reflexivity.
Qed.

Lemma pow2_le a b : a <= b -> (powerRZ 2 a <= powerRZ 2 b)%R.
Proof.
  intros H. replace b with (a + (b - a)) by ring. rewrite pow2_add.
  rewrite (pow2_IZR (b - a)) by lia.
  assert (1 <= 2 ^ (b - a)) by (apply Z.lt_pred_le, Z.pow_pos_nonneg; lia).
  apply IZR_le in H0. pose proof (pow2_pos a). nra.
Qed.

Lemma pow2_lt a b : a < b -> (powerRZ 2 a < powerRZ 2 b)%R.
Proof.
  intros H. replace b with (a + (b - a)) by ring. rewrite pow2_add.
  rewrite (pow2_IZR (b - a)) by lia.
  assert (2 <= 2 ^ (b - a)).
  { replace (b - a) with (Z.succ (b - a - 1)) by lia. rewrite Z.pow_succ_r by lia.
    assert (0 < 2 ^ (b - a - 1)) by (apply Z.pow_pos_nonneg; lia). lia. }
  apply IZR_le in H0. pose proof (pow2_pos a). nra.
Qed.

Lemma pow2_lt_inv a b : (powerRZ 2 a < powerRZ 2 b)%R -> a < b.
Proof.
  intros H. destruct (Z_lt_le_dec a b) as [|Hle]; [assumption|].
  apply pow2_le in Hle. lra.
Qed.

(** ** Number of binary digits *)
Lemma digits2_size m : digits2_pos m = Pos.size m.
Proof. induction m; simpl; congruence. Qed.

Lemma digits2_bounds m :
  2 ^ (Zpos (digits2_pos m) - 1) <= Zpos m < 2 ^ Zpos (digits2_pos m).
Proof.
  rewrite digits2_size. split.
  - pose proof (Pos.size_le m) as H.
    assert (H' : 2 ^ Zpos (Pos.size m) <= 2 * Zpos m).
    { rewrite <- Pos2Z.inj_pow. change (2 * Zpos m) with (Zpos m~0). lia. }
    replace (Zpos (Pos.size m)) with (Z.succ (Zpos (Pos.size m) - 1)) in H' by lia.
    rewrite Z.pow_succ_r in H' by lia. lia.
  - pose proof (Pos.size_gt m) as H. rewrite <- Pos2Z.inj_pow. lia.
Qed.

Lemma Zdigits2_le m n : 0 < m < 2 ^ n -> 0 <= n -> 0 < Zdigits2 m <= n.
Proof.
  intros [H0 H1] Hn. destruct m as [|p|p]; try lia. simpl.
  pose proof (digits2_bounds p) as [Hl _]. split; [lia|].
  destruct (Z_le_gt_dec (Zpos (digits2_pos p)) n) as [|Hgt]; [assumption|].
  assert (2 ^ n <= 2 ^ (Zpos (digits2_pos p) - 1)) by (apply Z.pow_le_mono_r; lia). lia.
Qed.

Lemma Zdigits2_ge m n : 2 ^ n <= m -> 0 <= n -> n + 1 <= Zdigits2 m.
Proof.
  intros H Hn. assert (0 < 2 ^ n) by (apply Z.pow_pos_nonneg; lia).
  destruct m as [|p|p]; try lia. simpl.
  pose proof (digits2_bounds p) as [_ Hu].
  destruct (Z_le_gt_dec (n + 1) (Zpos (digits2_pos p))) as [|Hgt]; [assumption|].
  assert (2 ^ Zpos (digits2_pos p) <= 2 ^ n) by (apply Z.pow_le_mono_r; lia). lia.
Qed.

(** ** Right shifts *)
Lemma iter_pos_nat {A} (f : A -> A) p x : SpecFloat.iter_pos f p x = Nat.iter (Pos.to_nat p) f x.
Proof.
  revert x. induction p as [p IH|p IH|]; intros x; cbn [SpecFloat.iter_pos].
  - rewrite !IH, Pos2Nat.inj_xI, Nat.iter_succ_r.
    replace (2 * Pos.to_nat p)%nat with (Pos.to_nat p + Pos.to_nat p)%nat by lia.
    rewrite Nat.iter_add. reflexivity.
  - rewrite !IH, Pos2Nat.inj_xO.
    replace (2 * Pos.to_nat p)%nat with (Pos.to_nat p + Pos.to_nat p)%nat by lia.
    rewrite Nat.iter_add. reflexivity.
  - reflexivity.
Qed.

Lemma shr_1_nonneg m r s : 0 <= m ->
  shr_1 (Build_shr_record m r s) = Build_shr_record (m / 2) (Z.odd m) (r || s).
Proof.
  intros Hm. destruct m as [|p|p]; [reflexivity| |lia].
  destruct p as [p|p|]; unfold shr_1.
  - f_equal. rewrite Pos2Z.inj_xI. rewrite Z.mul_comm, Z.div_add_l by lia. reflexivity.
  - f_equal. rewrite Pos2Z.inj_xO. rewrite Z.mul_comm, Z.div_mul by lia. reflexivity.
  - reflexivity.
Qed.

Lemma shr_iter M n : 0 <= M ->
  Nat.iter (S n) shr_1 (Build_shr_record M false false) =
  Build_shr_record (M / 2 ^ Z.of_nat (S n)) (Z.odd (M / 2 ^ Z.of_nat n))
                   (negb (M mod 2 ^ Z.of_nat n =? 0)).
Proof.
  intros HM. induction n as [|n IH].
  - change (Nat.iter 1 shr_1 ?x) with (shr_1 x). rewrite shr_1_nonneg by assumption.
    change (2 ^ Z.of_nat 1) with 2. change (2 ^ Z.of_nat 0) with 1.
    rewrite Z.div_1_r, Z.mod_1_r. reflexivity.
  - rewrite Nat.iter_succ, IH.
    assert (Hp : 0 < 2 ^ Z.of_nat n) by (apply Z.pow_pos_nonneg; lia).
    assert (Hp1 : 2 ^ Z.of_nat (S n) = 2 ^ Z.of_nat n * 2).
    { rewrite Nat2Z.inj_succ, Z.pow_succ_r by lia. ring. }
    assert (Hp2 : 2 ^ Z.of_nat (S (S n)) = 2 ^ Z.of_nat (S n) * 2).
    { rewrite (Nat2Z.inj_succ (S n)), Z.pow_succ_r by lia. ring. }
    rewrite shr_1_nonneg by (apply Z.div_pos; lia).
    f_equal.
    + rewrite Hp2, Z.div_div by lia. reflexivity.
    + (* sticky bit *)
      rewrite Hp1, Z.rem_mul_r by lia.
      pose proof (Z.mod_pos_bound M (2 ^ Z.of_nat n) Hp) as Hb.
      rewrite Zmod_odd.
      destruct (Z.odd (M / 2 ^ Z.of_nat n)); simpl.
      * symmetry. apply negb_true_iff, Z.eqb_neq. lia.
      * rewrite Z.mul_0_r, Z.add_0_r. reflexivity.
Qed.


Lemma shr_spec M E n : 0 <= M -> 0 < n ->
  shr (Build_shr_record M false false) E n =
  (Build_shr_record (M / 2 ^ n) (Z.odd (M / 2 ^ (n - 1))) (negb (M mod 2 ^ (n - 1) =? 0)),
   E + n).
Proof.
  intros HM Hn. destruct n as [|p|p]; try lia. unfold shr.
  rewrite iter_pos_nat.
  destruct (Pos.to_nat p) as [|k] eqn:Hk; [lia|].
  rewrite shr_iter by assumption.
  assert (Z.of_nat (S k) = Zpos p) by lia.
  assert (Z.of_nat k = Zpos p - 1) by lia.
  congruence.
Qed.

Lemma shr_loc M n : 0 <= M -> 0 < n ->
  loc_of_shr_record
    (Build_shr_record (M / 2 ^ n) (Z.odd (M / 2 ^ (n - 1))) (negb (M mod 2 ^ (n - 1) =? 0)))
  = loc_rem (M mod 2 ^ n) (2 ^ (n - 1)).
Proof.
  intros HM Hn.
  assert (Hp : 0 < 2 ^ (n - 1)) by (apply Z.pow_pos_nonneg; lia).
  assert (Hn2 : 2 ^ n = 2 ^ (n - 1) * 2).
  { replace n with (Z.succ (n - 1)) at 1 by lia. rewrite Z.pow_succ_r by lia. ring. }
  rewrite Hn2, Z.rem_mul_r by lia.
  pose proof (Z.mod_pos_bound M (2 ^ (n - 1)) Hp) as Hb.
  rewrite Zmod_odd. unfold loc_rem, loc_of_shr_record.
  destruct (Z.odd (M / 2 ^ (n - 1))); destruct (M mod 2 ^ (n - 1) =? 0) eqn:Hs; simpl negb; cbv iota.
  - apply Z.eqb_eq in Hs. rewrite Hs.
    replace (0 + 2 ^ (n - 1) * 1) with (2 ^ (n - 1)) by ring.
    destruct (2 ^ (n - 1) =? 0) eqn:H0; [apply Z.eqb_eq in H0; lia|].
    rewrite Z.compare_refl. reflexivity.
  - apply Z.eqb_neq in Hs.
    destruct (_ =? 0) eqn:H0; [apply Z.eqb_eq in H0; lia|].
    replace (_ ?= _) with Gt; [reflexivity|]. symmetry. apply Z.compare_gt_iff. lia.
  - apply Z.eqb_eq in Hs. rewrite Hs.
    replace (0 + 2 ^ (n - 1) * 0) with 0 by ring. reflexivity.
  - apply Z.eqb_neq in Hs.
    destruct (_ =? 0) eqn:H0; [apply Z.eqb_eq in H0; lia|].
    replace (_ ?= _) with Lt; [reflexivity|]. symmetry. apply Z.compare_lt_iff. lia.
Qed.

(** ** The rounding function of [SFmul] and [SFadd] *)
Lemma fexp_eq e : fexp prec emax e = Z.max (e - 53) (-1074).
Proof. reflexivity. Qed.

Lemma shr_nonpos mrs e n : n <= 0 -> shr mrs e n = (mrs, e).
Proof. destruct n; [reflexivity|lia|reflexivity]. Qed.


Lemma shr_fexp_small m e :
  0 <= m < 2 ^ 53 -> -1074 <= e ->
  shr_fexp prec emax m e loc_Exact = (Build_shr_record m false false, e).
Proof.
  intros Hm He. unfold shr_fexp. cbn [shr_record_of_loc].
  apply shr_nonpos. rewrite fexp_eq.
  destruct (Z.eq_dec m 0) as [->|Hne].
  - simpl Zdigits2. lia.
  - pose proof (Zdigits2_le m 53 ltac:(lia) ltac:(lia)). lia.
Qed.

Lemma round_again sx m1 e1 :
  0 <= m1 <= 2 ^ 53 -> -1074 <= e1 ->
  (let '(mrs, e2) := shr_fexp prec emax m1 e1 loc_Exact in
   match shr_m mrs with
   | Z0 => S754_zero sx
   | Zpos m => if e2 <=? emax - prec then S754_finite sx m e2 else S754_infinity sx
   | _ => S754_nan
   end) = round_result sx m1 e1.
Proof.
  intros Hm He. unfold round_result.
  destruct (m1 =? 2 ^ 53) eqn:H53.
  - apply Z.eqb_eq in H53. subst m1.
    unfold shr_fexp. cbn [shr_record_of_loc].
    replace (fexp prec emax (Zdigits2 (2 ^ 53) + e1) - e1) with 1
      by (rewrite fexp_eq; change (Zdigits2 (2 ^ 53)) with 54; lia).
    rewrite shr_spec by lia. reflexivity.
  - apply Z.eqb_neq in H53. rewrite shr_fexp_small by lia.
    cbn [shr_m]. destruct m1; try reflexivity. lia.
Qed.

Lemma bra_exact sx M E :
  fexp prec emax (Zpos (digits2_pos M) + E) = E ->
  binary_round_aux prec emax sx (Zpos M) E loc_Exact = round_result sx (Zpos M) E.
Proof.
  intros HE. pose proof HE as HE'. rewrite fexp_eq in HE'.
  pose proof (digits2_bounds M) as [_ Hu].
  assert (HM : Zpos M < 2 ^ 53).
  { eapply Z.lt_le_trans; [exact Hu|]. apply Z.pow_le_mono_r; lia. }
  unfold binary_round_aux.
  rewrite shr_fexp_small by lia. cbn [shr_m loc_of_shr_record round_nearest_even].
  apply round_again; lia.
Qed.

Lemma bra_shift sx M E :
  let e1 := fexp prec emax (Zpos (digits2_pos M) + E) in
  let k := e1 - E in
  let q := Zpos M / 2 ^ k in
  let m1 := round_nearest_even q (loc_rem (Zpos M mod 2 ^ k) (2 ^ (k - 1))) in
  E < e1 ->
  binary_round_aux prec emax sx (Zpos M) E loc_Exact = round_result sx m1 e1
  /\ 0 <= q < 2 ^ 53 /\ (e1 = -1074 \/ 2 ^ 52 <= q).
Proof.
  intros e1 k q m1 HE.
  assert (Hk : 0 < k) by (unfold k; lia).
  assert (He1 : e1 = Z.max (Zpos (digits2_pos M) + E - 53) (-1074)) by reflexivity.
  pose proof (digits2_bounds M) as [Hl Hu].
  assert (Hpk : 0 < 2 ^ k) by (apply Z.pow_pos_nonneg; lia).
  assert (Hq : 0 <= q < 2 ^ 53).
  { split; [apply Z.div_pos; lia|].
    apply Z.div_lt_upper_bound; [lia|]. rewrite <- Z.pow_add_r by lia.
    eapply Z.lt_le_trans; [exact Hu|]. apply Z.pow_le_mono_r; lia. }
  assert (Hn : e1 = -1074 \/ 2 ^ 52 <= q).
  { destruct (Z.eq_dec e1 (-1074)) as [|Hne]; [now left|right].
    assert (Hkd : k = Zpos (digits2_pos M) - 53) by lia.
    apply Z.div_le_lower_bound; [lia|]. rewrite <- Z.pow_add_r by lia.
    replace (k + 52) with (Zpos (digits2_pos M) - 1) by lia. exact Hl. }
  split; [|split; assumption].
  unfold binary_round_aux, shr_fexp at 1. cbn [shr_record_of_loc Zdigits2].
  fold e1. fold k. rewrite shr_spec by lia. cbn [shr_m].
  rewrite shr_loc by lia. fold q. fold m1.
  replace (E + k) with e1 by (unfold k; ring).
  apply round_again; [|lia].
  unfold m1, round_nearest_even.
  destruct (loc_rem _ _) as [|[| |]]; try lia. destruct (Z.even q); lia.
Qed.

(** ** Real values of mantissa and exponent *)

Lemma F2R_mag m e :
  (powerRZ 2 (Zpos (digits2_pos m) + e - 1) <= F2R (Zpos m) e
   < powerRZ 2 (Zpos (digits2_pos m) + e))%R.
Proof.
  pose proof (digits2_bounds m) as [Hl Hu].
  apply IZR_le in Hl. apply IZR_lt in Hu.
  rewrite <- pow2_IZR in Hl, Hu by lia.
  replace (Zpos (digits2_pos m) + e - 1) with ((Zpos (digits2_pos m) - 1) + e) by ring.
  rewrite !pow2_add. unfold F2R. pose proof (pow2_pos e). split; nra.
Qed.

Lemma F2R_shift m e e' : e' <= e -> F2R m e = F2R (m * 2 ^ (e - e')) e'.
Proof.
  intros H. unfold F2R. rewrite mult_IZR, <- pow2_IZR by lia.
  rewrite Rmult_assoc, <- pow2_add. f_equal. f_equal. ring.
Qed.

Lemma F2R_le_inv m n e : (F2R m e <= F2R n e)%R -> m <= n.
Proof.
  unfold F2R. intros H. pose proof (pow2_pos e).
  apply le_IZR. nra.
Qed.

Lemma F2R_lt_inv m n e : (F2R m e < F2R n e)%R -> m < n.
Proof.
  unfold F2R. intros H. pose proof (pow2_pos e).
  apply lt_IZR. nra.
Qed.

Lemma F2R_le m n e : m <= n -> (F2R m e <= F2R n e)%R.
Proof.
  unfold F2R. intros H. pose proof (pow2_pos e). apply IZR_le in H. nra.
Qed.

Lemma canon_facts m e : canon m e ->
  Zpos (digits2_pos m) <= 53 /\ -1074 <= e /\ (e = -1074 \/ Zpos (digits2_pos m) = 53).
Proof. unfold canon. rewrite fexp_eq. lia. Qed.

Lemma rne_cases q rem half : 0 <= rem -> 0 < half ->
  (round_nearest_even q (loc_rem rem half) = q /\ rem <= half) \/
  (round_nearest_even q (loc_rem rem half) = q + 1 /\ half <= rem).
Proof.
  intros Hr Hh. unfold loc_rem, round_nearest_even.
  destruct (rem =? 0) eqn:H0.
  - apply Z.eqb_eq in H0. left. split; [reflexivity|lia].
  - destruct (rem ?= half) eqn:Hc.
    + apply Z.compare_eq_iff in Hc. destruct (Z.even q); [left|right]; (split; [reflexivity|lia]).
    + assert (rem < half) by (apply Z.compare_lt_iff; exact Hc). left. split; [reflexivity|lia].
    + assert (rem > half) by (apply Z.compare_gt_iff in Hc; lia). right. split; [reflexivity|lia].
Qed.

Lemma shift_real (q K rem p h : R) :
  (0 < p -> K = 2 * h -> 0 <= rem < K ->
   q * (K * p) <= (q * K + rem) * p < (q + 1) * (K * p) /\
   (rem <= h -> 2 * (q * (K * p) - (q * K + rem) * p) <= K * p /\
                2 * ((q * K + rem) * p - q * (K * p)) <= K * p) /\
   (h <= rem -> 2 * ((q + 1) * (K * p) - (q * K + rem) * p) <= K * p /\
                2 * ((q * K + rem) * p - (q + 1) * (K * p)) <= K * p))%R.
Proof.
  intros Hp HK [Hr0 Hr1].
  assert (A1 : (0 <= rem * p)%R) by (apply Rmult_le_pos; lra).
  assert (A2 : (rem * p < K * p)%R) by (apply Rmult_lt_compat_r; lra).
  assert (A3 : (K * p = 2 * (h * p))%R) by (rewrite HK; ring).
  split; [split; lra|]. split; intros Hh.
  - assert (A4 : (rem * p <= h * p)%R) by (apply Rmult_le_compat_r; lra).
    split; lra.
  - assert (A4 : (h * p <= rem * p)%R) by (apply Rmult_le_compat_r; lra).
    split; lra.
Qed.

(** What [binary_round_aux] computes on an exact input whose exponent is
    not above the canonical one. *)
Lemma bra_facts sx M E :
  E <= fexp prec emax (Zpos (digits2_pos M) + E) ->
  exists q m1 e1 : Z,
    e1 = fexp prec emax (Zpos (digits2_pos M) + E) /\
    binary_round_aux prec emax sx (Zpos M) E loc_Exact = round_result sx m1 e1 /\
    0 <= q < 2 ^ 53 /\ (e1 = -1074 \/ 2 ^ 52 <= q) /\ (m1 = q \/ m1 = q + 1) /\
    (F2R q e1 <= F2R (Zpos M) E < F2R (q + 1) e1)%R /\
    (2 * (F2R m1 e1 - F2R (Zpos M) E) <= powerRZ 2 e1)%R /\
    (2 * (F2R (Zpos M) E - F2R m1 e1) <= powerRZ 2 e1)%R.
Proof.
  intros HE.
  remember (fexp prec emax (Zpos (digits2_pos M) + E)) as e1 eqn:He1.
  destruct (Z.eq_dec E e1) as [Heq|Hne].
  - exists (Zpos M), (Zpos M), e1. subst E.
    pose proof (digits2_bounds M) as [Hl Hu].
    pose proof He1 as He1'. rewrite fexp_eq in He1'.
    assert (HM : Zpos M < 2 ^ 53).
    { eapply Z.lt_le_trans; [exact Hu|]. apply Z.pow_le_mono_r; lia. }
    pose proof (pow2_pos e1) as Hp.
    split; [reflexivity|]. split; [apply bra_exact; symmetry; exact He1|].
    split; [lia|]. split.
    { destruct (Z.eq_dec e1 (-1074)); [now left|right].
      assert (Hd : Zpos (digits2_pos M) = 53) by lia.
      rewrite Hd in Hl. exact Hl. }
    split; [now left|].
    unfold F2R. rewrite plus_IZR.
    assert (0 <= IZR (Zpos M) * powerRZ 2 e1)%R by (apply Rmult_le_pos; [apply IZR_le; lia|lra]).
    split; [split; lra|split; lra].
  - assert (Hlt : E < e1) by lia.
    pose proof (bra_shift sx M E) as Hs. cbv zeta in Hs. rewrite <- He1 in Hs.
    destruct (Hs Hlt) as (Hres & Hq & Hn). clear Hs.
    assert (Hk : 0 < e1 - E) by lia.
    remember (e1 - E) as k eqn:Hkdef.
    assert (Hpk : 0 < 2 ^ k) by (apply Z.pow_pos_nonneg; lia).
    assert (Hh : 2 ^ k = 2 * 2 ^ (k - 1)).
    { replace k with (Z.succ (k - 1)) at 1 by lia. rewrite Z.pow_succ_r by lia. ring. }
    assert (Hph : 0 < 2 ^ (k - 1)) by (apply Z.pow_pos_nonneg; lia).
    pose proof (Z.div_mod (Zpos M) (2 ^ k) ltac:(lia)) as HM.
    pose proof (Z.mod_pos_bound (Zpos M) (2 ^ k) Hpk) as Hrem.
    remember (Zpos M / 2 ^ k) as q eqn:Hqdef.
    remember (Zpos M mod 2 ^ k) as rem eqn:Hremdef.
    pose proof (rne_cases q rem (2 ^ (k - 1)) (proj1 Hrem) Hph) as Hm1.
    remember (round_nearest_even q (loc_rem rem (2 ^ (k - 1)))) as m1 eqn:Hm1def.
    exists q, m1, e1.
    split; [reflexivity|]. split; [exact Hres|]. split; [exact Hq|]. split; [exact Hn|].
    split; [destruct Hm1 as [[? _]|[? _]]; [now left|now right]|].
    pose proof (pow2_pos E) as HpE.
    assert (Hp1 : powerRZ 2 e1 = (IZR (2 ^ k) * powerRZ 2 E)%R).
    { replace e1 with (k + E) by lia. rewrite pow2_add, pow2_IZR by lia. reflexivity. }
    assert (HKh : IZR (2 ^ k) = (2 * IZR (2 ^ (k - 1)))%R).
    { rewrite Hh at 1. rewrite mult_IZR. reflexivity. }
    assert (HremR : (0 <= IZR rem < IZR (2 ^ k))%R).
    { split; [apply IZR_le|apply IZR_lt]; lia. }
    pose proof (shift_real (IZR q) (IZR (2 ^ k)) (IZR rem) (powerRZ 2 E) (IZR (2 ^ (k - 1)))
                  HpE HKh HremR) as (B1 & B2 & B3).
    assert (Hv : F2R (Zpos M) E = ((IZR q * IZR (2 ^ k) + IZR rem) * powerRZ 2 E)%R).
    { unfold F2R. rewrite HM at 1. rewrite plus_IZR, mult_IZR. ring. }
    unfold F2R in *. rewrite Hv, Hp1, plus_IZR.
    split; [exact B1|].
    destruct Hm1 as [[-> Hr]|[-> Hr]].
    + apply IZR_le in Hr. destruct (B2 Hr). split; assumption.
    + apply IZR_le in Hr. destruct (B3 Hr). rewrite plus_IZR. split; assumption.
Qed.

Lemma F2R_succ q e : F2R (q + 1) e = (F2R q e + powerRZ 2 e)%R.
Proof. unfold F2R. rewrite plus_IZR. ring. Qed.

Lemma canon_exp_le m1 e1 m2 e2 :
  (F2R (Zpos m1) e1 <= F2R (Zpos m2) e2)%R ->
  fexp prec emax (Zpos (digits2_pos m1) + e1) <= fexp prec emax (Zpos (digits2_pos m2) + e2).
Proof.
  intros H. pose proof (F2R_mag m1 e1) as [Hl _]. pose proof (F2R_mag m2 e2) as [_ Hu].
  assert (Hlt : (powerRZ 2 (Zpos (digits2_pos m1) + e1 - 1)
                 < powerRZ 2 (Zpos (digits2_pos m2) + e2))%R) by lra.
  apply pow2_lt_inv in Hlt. rewrite !fexp_eq. lia.
Qed.

Lemma rounds_upper M E q m1 e1 mb eb :
  rounds M E q m1 e1 -> canon mb eb ->
  (F2R (Zpos M) E <= F2R (Zpos mb) eb)%R ->
  (F2R m1 e1 <= F2R (Zpos mb) eb)%R /\
  (F2R (Zpos M) E - F2R m1 e1 <= F2R (Zpos mb) eb - F2R (Zpos M) E)%R /\
  e1 <= eb /\ (m1 = 2 ^ 53 -> e1 + 1 <= eb).
Proof.
  intros (He1 & Hq & Hn & Hm1 & [Hv1 Hv2] & Hn1 & Hn2) Hc Hle.
  pose proof (canon_exp_le _ _ _ _ Hle) as Hee. rewrite <- He1, Hc in Hee.
  pose proof (pow2_pos e1) as Hp.
  rewrite (F2R_shift (Zpos mb) eb e1 Hee) in *.
  set (j := Zpos mb * 2 ^ (eb - e1)) in *.
  assert (Hqj : q <= j) by (apply (F2R_le_inv q j e1); lra).
  assert (Hj : j = q \/ q + 1 <= j) by lia.
  rewrite F2R_succ in Hv2.
  assert (Hmu : (F2R m1 e1 <= F2R j e1)%R /\
                (F2R (Zpos M) E - F2R m1 e1 <= F2R j e1 - F2R (Zpos M) E)%R).
  { destruct Hj as [-> | Hj].
    - destruct Hm1 as [-> | ->]; [lra|]. rewrite F2R_succ in *. lra.
    - apply (F2R_le _ _ e1) in Hj. rewrite F2R_succ in Hj.
      destruct Hm1 as [-> | ->]; [lra|]. rewrite F2R_succ in *. lra. }
  destruct Hmu as [Hmu1 Hmu2].
  split; [exact Hmu1|]. split; [exact Hmu2|]. split; [exact Hee|].
  intros H53. subst m1.
  unfold j in Hmu1. rewrite <- (F2R_shift (Zpos mb) eb e1 Hee) in Hmu1.
  pose proof (F2R_mag mb eb) as [_ Hu].
  assert (Hlt : (powerRZ 2 (53 + e1) < powerRZ 2 (Zpos (digits2_pos mb) + eb))%R).
  { rewrite pow2_add, (pow2_IZR 53) by lia. unfold F2R in Hmu1, Hu. lra. }
  apply pow2_lt_inv in Hlt. destruct (canon_facts _ _ Hc) as (Hd & _ & _). lia.
Qed.

Lemma rounds_lower M E q m1 e1 ma ea :
  rounds M E q m1 e1 -> canon ma ea ->
  (F2R (Zpos ma) ea <= F2R (Zpos M) E)%R ->
  (F2R (Zpos ma) ea <= F2R m1 e1)%R /\
  (F2R m1 e1 - F2R (Zpos M) E <= F2R (Zpos M) E - F2R (Zpos ma) ea)%R.
Proof.
  intros (He1 & Hq & Hn & Hm1 & [Hv1 Hv2] & Hn1 & Hn2) Hc Hle.
  pose proof (canon_exp_le _ _ _ _ Hle) as Hee. rewrite <- He1, Hc in Hee.
  pose proof (pow2_pos e1) as Hp.
  assert (Ha : (F2R (Zpos ma) ea <= F2R q e1)%R).
  { destruct (Z.eq_dec ea e1) as [-> | Hne].
    - apply F2R_le. assert (Zpos ma < q + 1); [|lia].
      apply (F2R_lt_inv _ _ e1). lra.
    - destruct (canon_facts _ _ Hc) as (Hd & Hea & _).
      destruct Hn as [Hn|Hn]; [lia|].
      pose proof (F2R_mag ma ea) as [_ Hu].
      assert (H1 : (powerRZ 2 (Zpos (digits2_pos ma) + ea) <= powerRZ 2 (52 + e1))%R)
        by (apply pow2_le; lia).
      assert (H2 : (powerRZ 2 (52 + e1) <= F2R q e1)%R).
      { rewrite pow2_add, (pow2_IZR 52) by lia. apply IZR_le in Hn.
        unfold F2R. apply Rmult_le_compat_r; lra. }
      lra. }
  rewrite F2R_succ in Hv2.
  destruct Hm1 as [-> | ->]; [split; lra|]. rewrite F2R_succ in *. split; lra.
Qed.

(** The magnitude of the result and its validity. *)
Lemma round_result_finite sx q m1 e1 :
  0 <= q < 2 ^ 53 -> (e1 = -1074 \/ 2 ^ 52 <= q) -> (m1 = q \/ m1 = q + 1) ->
  -1074 <= e1 ->
  is_finite (round_result sx m1 e1) = true ->
  finite_valid (round_result sx m1 e1) = true /\
  SF2R (round_result sx m1 e1) = (if sx then - F2R m1 e1 else F2R m1 e1)%R.
Proof.
  intros Hq Hn Hm1 He1 Hfin. unfold round_result in *.
  destruct (m1 =? 2 ^ 53) eqn:H53.
  - apply Z.eqb_eq in H53. destruct (e1 + 1 <=? emax - prec) eqn:Hle; [|discriminate].
    split.
    + unfold finite_valid. cbn [is_finite valid_binary andb].
      unfold SpecFloat.bounded, canonical_mantissa. rewrite Hle, andb_true_r.
      apply Z.eqb_eq. rewrite fexp_eq.
      change (Zpos (digits2_pos (2 ^ 52))) with 53. lia.
    + cbn [SF2R]. rewrite H53. unfold F2R.
      replace (e1 + 1) with (1 + e1) by ring. rewrite pow2_add.
      change (powerRZ 2 1) with (2 * 1)%R.
      destruct sx; cbn [cond_Zopp]; [rewrite opp_IZR|];
        change (Zpos (2 ^ 52)) with (2 ^ 52); rewrite <- !pow2_IZR by lia;
        change (powerRZ 2 53) with (2 * powerRZ 2 52)%R; ring.
  - apply Z.eqb_neq in H53. destruct m1 as [|m|m]; [| |lia].
    + split; [reflexivity|]. cbn [SF2R]. unfold F2R. destruct sx; ring.
    + destruct (e1 <=? emax - prec) eqn:Hle; [|discriminate]. split.
      * unfold finite_valid. cbn [is_finite valid_binary andb].
        unfold SpecFloat.bounded, canonical_mantissa. rewrite Hle, andb_true_r.
        apply Z.eqb_eq. rewrite fexp_eq.
        pose proof (Zdigits2_le (Zpos m) 53 ltac:(lia) ltac:(lia)) as Hd.
        cbn [Zdigits2] in Hd.
        destruct Hn as [Hn|Hn]; [lia|].
        pose proof (Zdigits2_ge (Zpos m) 52 ltac:(lia) ltac:(lia)) as Hd'.
        cbn [Zdigits2] in Hd'. lia.
      * cbn [SF2R]. unfold F2R. destruct sx; cbn [cond_Zopp]; [rewrite opp_IZR|]; ring.
Qed.

Lemma round_result_exp sx m1 e1 eb :
  0 <= m1 <= 2 ^ 53 -> e1 <= eb -> (m1 = 2 ^ 53 -> e1 + 1 <= eb) -> eb <= emax - prec ->
  is_finite (round_result sx m1 e1) = true.
Proof.
  intros Hm Hle H53 Heb. unfold round_result.
  destruct (m1 =? 2 ^ 53) eqn:E53.
  - apply Z.eqb_eq in E53. specialize (H53 E53).
    destruct (e1 + 1 <=? emax - prec) eqn:Hc; [reflexivity|]. apply Z.leb_gt in Hc. lia.
  - destruct m1; try reflexivity.
    destruct (e1 <=? emax - prec) eqn:Hc; [reflexivity|]. apply Z.leb_gt in Hc. lia.
Qed.

Lemma F2R_pos m e : (0 < F2R (Zpos m) e)%R.
Proof.
  unfold F2R. apply Rmult_lt_0_compat; [apply IZR_lt; lia|apply pow2_pos].
Qed.

Lemma rounds_zero M E q m1 e1 :
  rounds M E q m1 e1 ->
  (0 <= F2R m1 e1)%R /\ (F2R m1 e1 - F2R (Zpos M) E <= F2R (Zpos M) E)%R.
Proof.
  intros (He1 & Hq & Hn & Hm1 & [Hv1 Hv2] & Hn1 & Hn2).
  pose proof (pow2_pos e1) as Hp.
  assert (Hq0 : (0 <= F2R q e1)%R).
  { unfold F2R. apply Rmult_le_pos; [apply IZR_le; lia|lra]. }
  destruct Hm1 as [-> | ->]; [split; lra|]. rewrite F2R_succ in *. split; lra.
Qed.

(** The shapes of a finite valid number. *)
Lemma finite_valid_cases (A : number) :
  finite_valid A = true ->
  (exists s, A = S754_zero s) \/
  (exists s m e, A = S754_finite s m e /\ canon m e /\ e <= emax - prec).
Proof.
  destruct A as [s| | |s m e]; try discriminate.
  - intros _. left. now exists s.
  - unfold finite_valid. cbn [is_finite valid_binary andb].
    unfold SpecFloat.bounded, canonical_mantissa. intros H.
    apply andb_true_iff in H as [H1 H2]. apply Z.eqb_eq in H1. apply Z.leb_le in H2.
    right. exists s, m, e. unfold canon. tauto.
Qed.

Lemma SF2R_finite s m e :
  SF2R (S754_finite s m e) = (if s then - F2R (Zpos m) e else F2R (Zpos m) e)%R.
Proof. cbn [SF2R]. unfold F2R. destruct s; cbn [cond_Zopp]; [rewrite opp_IZR|]; ring. Qed.

Lemma rounded_zero s : rounded 0 (S754_zero s).
Proof.
  split.
  - intros A B _ _ H. split; [reflexivity|]. cbn [SF2R]. exact H.
  - intros _. split; [reflexivity|]. intros C _. cbn [SF2R].
    rewrite Rminus_0_r, Rabs_R0. apply Rabs_pos.
Qed.

Lemma rounded_exact (x : number) : finite_valid x = true -> rounded (SF2R x) x.
Proof.
  intros Hx. split.
  - intros A B _ _ H. split; [exact Hx|exact H].
  - intros _. split; [exact Hx|]. intros C _.
    rewrite Rminus_diag, Rabs_R0. apply Rabs_pos.
Qed.

Lemma rounds_rounded (sx : bool) M E q m1 e1 :
  rounds M E q m1 e1 ->
  rounded (if sx then - F2R (Zpos M) E else F2R (Zpos M) E)%R (round_result sx m1 e1).
Proof.
  intros Hr. pose proof Hr as (He1 & Hq & Hn & Hm1 & [Hv1 Hv2] & Hn1 & Hn2).
  pose proof (F2R_pos M E) as Hv.
  pose proof (rounds_zero _ _ _ _ _ Hr) as [Hmu0 Hmuv].
  assert (Hemin : -1074 <= e1) by (rewrite He1, fexp_eq; lia).
  assert (Hm1b : 0 <= m1 <= 2 ^ 53) by lia.
  assert (Hval : is_finite (round_result sx m1 e1) = true ->
                 finite_valid (round_result sx m1 e1) = true /\
                 SF2R (round_result sx m1 e1) = (if sx then - F2R m1 e1 else F2R m1 e1)%R).
  { apply (round_result_finite sx q); assumption. }
  (* an upper bound on the magnitude makes the result finite *)
  assert (Hup : forall s mb eb, finite_valid (S754_finite s mb eb) = true ->
                 (F2R (Zpos M) E <= F2R (Zpos mb) eb)%R ->
                 is_finite (round_result sx m1 e1) = true /\
                 (F2R m1 e1 <= F2R (Zpos mb) eb)%R).
  { intros s mb eb Hfv Hle.
    destruct (finite_valid_cases _ Hfv) as [[s' Hz]|(s' & m' & e' & Heq & Hc & Hb)];
      [discriminate|]. inversion Heq; subst s' m' e'.
    destruct (rounds_upper _ _ _ _ _ _ _ Hr Hc Hle) as (Hu1 & _ & Hu3 & Hu4).
    split; [|exact Hu1]. apply (round_result_exp sx m1 e1 eb); assumption. }
  assert (Hlo : forall s ma ea, finite_valid (S754_finite s ma ea) = true ->
                 (F2R (Zpos ma) ea <= F2R (Zpos M) E)%R ->
                 (F2R (Zpos ma) ea <= F2R m1 e1)%R).
  { intros s ma ea Hfv Hle.
    destruct (finite_valid_cases _ Hfv) as [[s' Hz]|(s' & m' & e' & Heq & Hc & Hb)];
      [discriminate|]. inversion Heq; subst s' m' e'.
    exact (proj1 (rounds_lower _ _ _ _ _ _ _ Hr Hc Hle)). }
  split.
  - intros A B HA HB [HAx HxB].
    destruct sx.
    + (* negative: [A] is a negative number of magnitude at least the value *)
      destruct A as [sa| | |sa ma ea]; try discriminate; cbn [SF2R] in HAx; [lra|].
      fold (SF2R (S754_finite sa ma ea)) in HAx. rewrite SF2R_finite in HAx.
      pose proof (F2R_pos ma ea) as Hpa.
      destruct sa; [|lra].
      destruct (Hup true ma ea HA ltac:(lra)) as [Hfin Hle].
      destruct (Hval Hfin) as [Hfv Hsf]. split; [exact Hfv|]. rewrite Hsf, SF2R_finite.
      split; [lra|].
      destruct B as [sb| | |sb mb eb]; try discriminate; [cbn [SF2R]; lra|].
      rewrite SF2R_finite in *. pose proof (F2R_pos mb eb) as Hpb.
      destruct sb; [|lra].
      pose proof (Hlo true mb eb HB ltac:(lra)). lra.
    + destruct B as [sb| | |sb mb eb]; try discriminate; cbn [SF2R] in HxB; [lra|].
      fold (SF2R (S754_finite sb mb eb)) in HxB. rewrite SF2R_finite in HxB.
      pose proof (F2R_pos mb eb) as Hpb.
      destruct sb; [lra|].
      destruct (Hup false mb eb HB ltac:(lra)) as [Hfin Hle].
      destruct (Hval Hfin) as [Hfv Hsf]. split; [exact Hfv|]. rewrite Hsf, SF2R_finite.
      split; [|lra].
      destruct A as [sa| | |sa ma ea]; try discriminate; [cbn [SF2R]; lra|].
      rewrite SF2R_finite in *. pose proof (F2R_pos ma ea) as Hpa.
      destruct sa; [lra|].
      pose proof (Hlo false ma ea HA ltac:(lra)). lra.
  - intros Hfin. destruct (Hval Hfin) as [Hfv Hsf]. split; [exact Hfv|].
    intros C HC. rewrite Hsf.
    (* reduce to magnitudes *)
    assert (Hmag : forall c : R,
               (c <= 0 \/ exists mc ec, canon mc ec /\ c = F2R (Zpos mc) ec)%R ->
               (Rabs (F2R m1 e1 - F2R (Zpos M) E) <= Rabs (c - F2R (Zpos M) E))%R).
    { intros c [Hc|(mc & ec & Hcan & ->)].
      - rewrite (Rabs_left1 (c - _)) by lra.
        apply Rabs_le. lra.
      - destruct (Rle_dec (F2R (Zpos mc) ec) (F2R (Zpos M) E)) as [Hle|Hgt].
        + destruct (rounds_lower _ _ _ _ _ _ _ Hr Hcan Hle) as [L1 L2].
          rewrite (Rabs_left1 (F2R (Zpos mc) ec - _)) by lra. apply Rabs_le. lra.
        + assert (Hle : (F2R (Zpos M) E <= F2R (Zpos mc) ec)%R) by lra.
          destruct (rounds_upper _ _ _ _ _ _ _ Hr Hcan Hle) as (U1 & U2 & _).
          rewrite (Rabs_right (F2R (Zpos mc) ec - _)) by lra. apply Rabs_le. lra. }
    assert (Hc : forall s : bool, ((if s then - SF2R C else SF2R C) <= 0 \/
                 exists mc ec, canon mc ec /\
                               (if s then - SF2R C else SF2R C) = F2R (Zpos mc) ec)%R).
    { intros s. destruct (finite_valid_cases _ HC) as [[sc ->]|(sc & mc & ec & -> & Hcan & _)].
      - left. cbn [SF2R]. destruct s; lra.
      - rewrite SF2R_finite. pose proof (F2R_pos mc ec).
        destruct s, sc; try (left; lra); right; exists mc, ec; split; auto; lra. }
    destruct sx.
    + specialize (Hmag _ (Hc true)).
      replace (- F2R m1 e1 - - F2R (Zpos M) E)%R with (- (F2R m1 e1 - F2R (Zpos M) E))%R by ring.
      replace (SF2R C - - F2R (Zpos M) E)%R with (- (- SF2R C - F2R (Zpos M) E))%R by ring.
      rewrite !Rabs_Ropp. exact Hmag.
    + exact (Hmag _ (Hc false)).
Qed.

(** [binary_round_aux] on an exact input rounds correctly. *)
Lemma bra_rounded (sx : bool) M E :
  E <= fexp prec emax (Zpos (digits2_pos M) + E) ->
  rounded (if sx then - F2R (Zpos M) E else F2R (Zpos M) E)%R
          (binary_round_aux prec emax sx (Zpos M) E loc_Exact).
Proof.
  intros HE. destruct (bra_facts sx M E HE) as (q & m1 & e1 & H1 & -> & H).
  apply (rounds_rounded sx M E q). unfold rounds. tauto.
Qed.

Lemma digits2_shift m k : 0 <= k ->
  Zdigits2 (Zpos m * 2 ^ k) = Zpos (digits2_pos m) + k.
Proof.
  intros Hk. pose proof (digits2_bounds m) as [Hl Hu].
  assert (Hp : 0 < 2 ^ k) by (apply Z.pow_pos_nonneg; lia).
  assert (H1 : Zpos m * 2 ^ k < 2 ^ (Zpos (digits2_pos m) + k)).
  { rewrite Z.pow_add_r by lia. apply Z.mul_lt_mono_pos_r; assumption. }
  assert (H2 : 2 ^ (Zpos (digits2_pos m) - 1 + k) <= Zpos m * 2 ^ k).
  { rewrite Z.pow_add_r by lia. apply Z.mul_le_mono_nonneg_r; lia. }
  pose proof (Zdigits2_le (Zpos m * 2 ^ k) (Zpos (digits2_pos m) + k) ltac:(lia) ltac:(lia)).
  pose proof (Zdigits2_ge (Zpos m * 2 ^ k) (Zpos (digits2_pos m) - 1 + k) H2 ltac:(lia)).
  lia.
Qed.

Lemma iter_xO m d : Zpos (Pos.iter xO m d) = Zpos m * 2 ^ Zpos d.
Proof.
  induction d as [|d IH] using Pos.peano_ind.
  - cbn [Pos.iter]. rewrite Pos2Z.inj_xO. change (2 ^ 1) with 2. ring.
  - rewrite Pos.iter_succ, Pos2Z.inj_xO, IH, Pos2Z.inj_succ, Z.pow_succ_r by lia. ring.
Qed.

Lemma shl_align_spec m e e' : e' <= e ->
  snd (shl_align m e e') = e' /\ Zpos (fst (shl_align m e e')) = Zpos m * 2 ^ (e - e').
Proof.
  intros H. unfold shl_align. destruct (e' - e) as [|p|p] eqn:Hd; try lia.
  - cbn [fst snd]. replace (e - e') with 0 by lia. split; [lia|ring].
  - cbn [fst snd]. split; [reflexivity|]. rewrite iter_xO. f_equal. f_equal. lia.
Qed.

Lemma shl_align_id m e e' : e <= e' -> shl_align m e e' = (m, e).
Proof. intros H. unfold shl_align. destruct (e' - e) eqn:Hd; try reflexivity. lia. Qed.

(** [binary_round] rounds correctly. *)
Lemma binary_round_rounded (sx : bool) M E :
  rounded (if sx then - F2R (Zpos M) E else F2R (Zpos M) E)%R (binary_round prec emax sx M E).
Proof.
  unfold binary_round.
  set (e1 := fexp prec emax (Zpos (digits2_pos M) + E)).
  destruct (Z_le_gt_dec E e1) as [Hle|Hgt].
  - rewrite shl_align_id by assumption. apply bra_rounded. exact Hle.
  - destruct (shl_align_spec M E e1 ltac:(lia)) as [H1 H2].
    destruct (shl_align M E e1) as [mz ez]. cbn [fst snd] in H1, H2. subst ez.
    rewrite (F2R_shift (Zpos M) E e1) by lia. rewrite <- H2.
    apply bra_rounded.
    pose proof (digits2_shift M (E - e1) ltac:(lia)) as Hd. rewrite <- H2 in Hd.
    cbn [Zdigits2] in Hd. rewrite Hd.
    replace (Zpos (digits2_pos M) + (E - e1) + e1) with (Zpos (digits2_pos M) + E) by ring.
    fold e1. lia.
Qed.

Lemma binary_normalize_rounded m e :
  rounded (F2R m e) (binary_normalize prec emax m e false).
Proof.
  destruct m as [|p|p]; cbn [binary_normalize].
  - unfold F2R. rewrite Rmult_0_l. apply rounded_zero.
  - apply (binary_round_rounded false).
  - replace (F2R (Zneg p) e) with (- F2R (Zpos p) e)%R.
    + apply (binary_round_rounded true).
    + unfold F2R. change (Zneg p) with (- Zpos p). rewrite opp_IZR. ring.
Qed.

(** ** Multiplication *)

Lemma SF2R_F2R s m e : SF2R (S754_finite s m e) = F2R (cond_Zopp s (Zpos m)) e.
Proof. reflexivity. Qed.

Lemma mul_exponent mx ex my ey :
  canon mx ex -> canon my ey ->
  ex + ey <= fexp prec emax (Zpos (digits2_pos (mx * my)) + (ex + ey)).
Proof.
  intros Hx Hy. destruct (canon_facts _ _ Hx) as (Hdx & Hex & Hnx).
  destruct (canon_facts _ _ Hy) as (Hdy & Hey & Hny).
  pose proof (digits2_bounds mx) as [Hlx _]. pose proof (digits2_bounds my) as [Hly _].
  assert (Hl : 2 ^ (Zpos (digits2_pos mx) - 1 + (Zpos (digits2_pos my) - 1)) <= Zpos (mx * my)).
  { rewrite Z.pow_add_r, Pos2Z.inj_mul by lia.
    apply Z.mul_le_mono_nonneg; try lia; apply Z.pow_nonneg; lia. }
  pose proof (Zdigits2_ge _ _ Hl ltac:(lia)) as Hd. cbn [Zdigits2] in Hd.
  rewrite fexp_eq. lia.
Qed.

Theorem SFmul_rounded (x y : number) :
  finite_valid x = true -> finite_valid y = true ->
  rounded (SF2R x * SF2R y) (SFmul prec emax x y).
Proof.
  intros Hx Hy.
  destruct (finite_valid_cases x Hx) as [[sx ->]|(sx & mx & ex & -> & Hcx & _)];
    destruct (finite_valid_cases y Hy) as [[sy ->]|(sy & my & ey & -> & Hcy & _)];
    cbn [SFmul].
  - cbn [SF2R]. rewrite Rmult_0_l. apply rounded_zero.
  - cbn [SF2R]. rewrite Rmult_0_l. apply rounded_zero.
  - cbn [SF2R]. rewrite Rmult_0_r. apply rounded_zero.
  - pose proof (bra_rounded (xorb sx sy) (mx * my) (ex + ey) (mul_exponent _ _ _ _ Hcx Hcy)) as H.
    replace (SF2R (S754_finite sx mx ex) * SF2R (S754_finite sy my ey))%R
      with (if xorb sx sy then - F2R (Zpos (mx * my)) (ex + ey)
            else F2R (Zpos (mx * my)) (ex + ey))%R; [exact H|].
    rewrite !SF2R_finite. unfold F2R. rewrite Pos2Z.inj_mul, mult_IZR, pow2_add.
    destruct sx, sy; cbn [xorb]; ring.
Qed.

(** ** Addition and subtraction *)

Lemma add_aligned sx mx ex sy my ey :
  let ez := Z.min ex ey in
  F2R (cond_Zopp sx (Zpos (fst (shl_align mx ex ez))) +
       cond_Zopp sy (Zpos (fst (shl_align my ey ez)))) ez
  = (SF2R (S754_finite sx mx ex) + SF2R (S754_finite sy my ey))%R /\
  F2R (cond_Zopp sx (Zpos (fst (shl_align mx ex ez))) -
       cond_Zopp sy (Zpos (fst (shl_align my ey ez)))) ez
  = (SF2R (S754_finite sx mx ex) - SF2R (S754_finite sy my ey))%R.
Proof.
  intros ez.
  destruct (shl_align_spec mx ex ez ltac:(unfold ez; lia)) as [_ ->].
  destruct (shl_align_spec my ey ez ltac:(unfold ez; lia)) as [_ ->].
  rewrite !SF2R_F2R, (F2R_shift _ ex ez), (F2R_shift _ ey ez) by (unfold ez; lia).
  unfold F2R. rewrite plus_IZR, minus_IZR.
  destruct sx, sy; cbn [cond_Zopp]; rewrite ?Z.mul_opp_l; split; ring.
Qed.

Theorem SFadd_rounded (x y : number) :
  finite_valid x = true -> finite_valid y = true ->
  rounded (SF2R x + SF2R y) (SFadd prec emax x y).
Proof.
  intros Hx Hy.
  destruct x as [sx| | |sx mx ex]; try discriminate;
    destruct y as [sy| | |sy my ey]; try discriminate; cbn [SFadd].
  - cbn [SF2R]. rewrite Rplus_0_l. destruct sx, sy; apply rounded_zero.
  - cbn [SF2R]. rewrite Rplus_0_l. apply (rounded_exact _ Hy).
  - cbn [SF2R]. rewrite Rplus_0_r. apply (rounded_exact _ Hx).
  - rewrite <- (proj1 (add_aligned sx mx ex sy my ey)). apply binary_normalize_rounded.
Qed.

Lemma finite_valid_opp s m e :
  finite_valid (S754_finite s m e) = true -> finite_valid (S754_finite (negb s) m e) = true.
Proof. intros H; exact H. Qed.

Theorem SFsub_rounded (x y : number) :
  finite_valid x = true -> finite_valid y = true ->
  rounded (SF2R x - SF2R y) (SFsub prec emax x y).
Proof.
  intros Hx Hy.
  destruct x as [sx| | |sx mx ex]; try discriminate;
    destruct y as [sy| | |sy my ey]; try discriminate; cbn [SFsub].
  - cbn [SF2R]. rewrite Rminus_0_r. destruct sx, sy; apply rounded_zero.
  - replace (SF2R (S754_zero sx) - SF2R (S754_finite sy my ey))%R
      with (SF2R (S754_finite (negb sy) my ey)).
    + apply rounded_exact. exact Hy.
    + rewrite !SF2R_finite. cbn [SF2R]. destruct sy; cbn [negb]; ring.
  - cbn [SF2R]. rewrite Rminus_0_r. apply (rounded_exact _ Hx).
  - rewrite <- (proj2 (add_aligned sx mx ex sy my ey)). apply binary_normalize_rounded.
Qed.

(** ** Comparison *)

Lemma canon_compare m1 e1 m2 e2 :
  canon m1 e1 -> canon m2 e2 ->
  match (match Z.compare e1 e2 with
         | Lt => Lt | Gt => Gt | Eq => Pos.compare_cont Eq m1 m2 end) with
  | Lt => (F2R (Zpos m1) e1 < F2R (Zpos m2) e2)%R
  | Eq => F2R (Zpos m1) e1 = F2R (Zpos m2) e2
  | Gt => (F2R (Zpos m2) e2 < F2R (Zpos m1) e1)%R
  end.
Proof.
  assert (Hlt : forall ma ea mb eb, canon ma ea -> canon mb eb -> ea < eb ->
                 (F2R (Zpos ma) ea < F2R (Zpos mb) eb)%R).
  { intros ma ea mb eb Ha Hb Hab.
    destruct (canon_facts _ _ Ha) as (Hda & Hea & _).
    destruct (canon_facts _ _ Hb) as (Hdb & Heb & Hnb).
    pose proof (F2R_mag ma ea) as [_ Hu]. pose proof (F2R_mag mb eb) as [Hl _].
    assert (Zpos (digits2_pos mb) = 53) by lia.
    assert (H1 : (powerRZ 2 (Zpos (digits2_pos ma) + ea)
                  <= powerRZ 2 (Zpos (digits2_pos mb) + eb - 1))%R) by (apply pow2_le; lia).
    lra. }
  intros H1 H2. destruct (Z.compare_spec e1 e2) as [Heq|Hl|Hg].
  - subst e2. fold (Pos.compare m1 m2). pose proof (pow2_pos e1) as Hp.
    destruct (Pos.compare_spec m1 m2) as [->|Hm|Hm]; unfold F2R.
    + reflexivity.
    + apply Rmult_lt_compat_r; [lra|apply IZR_lt; lia].
    + apply Rmult_lt_compat_r; [lra|apply IZR_lt; lia].
  - now apply Hlt.
  - apply Hlt; [assumption|assumption|lia].
Qed.

Lemma SFcompare_correct (x y : number) :
  finite_valid x = true -> finite_valid y = true ->
  exists c, SFcompare x y = Some c /\
            match c with
            | Lt => (SF2R x < SF2R y)%R
            | Eq => SF2R x = SF2R y
            | Gt => (SF2R y < SF2R x)%R
            end.
Proof.
  intros Hx Hy.
  destruct (finite_valid_cases x Hx) as [[sx ->]|(sx & mx & ex & -> & Hcx & _)];
    destruct (finite_valid_cases y Hy) as [[sy ->]|(sy & my & ey & -> & Hcy & _)].
  - exists Eq. split; reflexivity.
  - pose proof (F2R_pos my ey). rewrite SF2R_finite. cbn [SFcompare SF2R].
    destruct sy; eexists; (split; [reflexivity|]); cbv iota; lra.
  - pose proof (F2R_pos mx ex). rewrite SF2R_finite. cbn [SFcompare SF2R].
    destruct sx; eexists; (split; [reflexivity|]); cbv iota; lra.
  - pose proof (F2R_pos mx ex). pose proof (F2R_pos my ey). rewrite !SF2R_finite.
    cbn [SFcompare].
    destruct sx, sy.
    + pose proof (canon_compare mx ex my ey Hcx Hcy) as Hc.
      eexists; split; [reflexivity|].
      destruct (ex ?= ey); [destruct (Pos.compare_cont Eq mx my)| |]; cbn [CompOpp]; lra.
    + eexists; split; [reflexivity|]; cbv iota; lra.
    + eexists; split; [reflexivity|]; cbv iota; lra.
    + pose proof (canon_compare mx ex my ey Hcx Hcy) as Hc.
      eexists; split; [reflexivity|].
      destruct (ex ?= ey); [destruct (Pos.compare_cont Eq mx my)| |]; lra.
Qed.

Lemma SFleb_iff (x y : number) :
  finite_valid x = true -> finite_valid y = true ->
  (SFleb x y = true <-> (SF2R x <= SF2R y)%R).
Proof.
  intros Hx Hy. destruct (SFcompare_correct x y Hx Hy) as (c & Hc & Hv).
  unfold SFleb. rewrite Hc. destruct c; split; intros H; try reflexivity; try lra; discriminate.
Qed.

Lemma SFltb_iff (x y : number) :
  finite_valid x = true -> finite_valid y = true ->
  (SFltb x y = true <-> (SF2R x < SF2R y)%R).
Proof.
  intros Hx Hy. destruct (SFcompare_correct x y Hx Hy) as (c & Hc & Hv).
  unfold SFltb. rewrite Hc. destruct c; split; intros H; try reflexivity; try lra; discriminate.
Qed.

(** ** Integers *)

Lemma to_Z_SF2R (x : number) (n : Z) : to_Z x = Some n -> SF2R x = IZR n.
Proof.
  destruct x as [s| | |s m e]; try discriminate; unfold to_Z.
  - intros [= <-]. reflexivity.
  - destruct (0 <=? e) eqn:He.
    + apply Z.leb_le in He. intros H.
      assert (Hn : n = cond_Zopp s (Zpos m * 2 ^ e)) by congruence.
      rewrite Hn, SF2R_F2R. unfold F2R.
      rewrite pow2_IZR by assumption.
      destruct s; unfold cond_Zopp; rewrite ?opp_IZR, !mult_IZR; ring.
    + apply Z.leb_gt in He.
      destruct (Zpos m mod 2 ^ (- e) =? 0) eqn:Hm; [|discriminate].
      apply Z.eqb_eq in Hm. intros H.
      assert (Hn : n = cond_Zopp s (Zpos m / 2 ^ (- e))) by congruence.
      rewrite Hn, SF2R_F2R. clear H Hn.
      assert (Hp : 0 < 2 ^ (- e)) by (apply Z.pow_pos_nonneg; lia).
      pose proof (Z.div_mod (Zpos m) (2 ^ (- e)) ltac:(lia)) as Hdm. rewrite Hm, Z.add_0_r in Hdm.
      assert (Hv : F2R (Zpos m) e = IZR (Zpos m / 2 ^ (- e))).
      { unfold F2R. rewrite Hdm at 1. rewrite mult_IZR, <- pow2_IZR by lia.
        rewrite Rmult_comm, <- Rmult_assoc, <- pow2_add.
        replace (e + - e) with 0 by ring. change (powerRZ 2 0) with 1%R. ring. }
      destruct s; cbn [cond_Zopp].
      * rewrite opp_IZR, <- Hv. unfold F2R. change (- Zpos m) with (Zneg m).
        change (Zneg m) with (- Zpos m). rewrite opp_IZR. ring.
      * exact Hv.
Qed.

(** Every integer of magnitude at most [2^53] is a number. *)
Lemma representable_int (n : Z) :
  Z.abs n <= 2 ^ 53 -> exists A, finite_valid A = true /\ SF2R A = IZR n.
Proof.
  intros Hn. destruct (Z.eq_dec n 0) as [->|Hne].
  - exists (S754_zero false). split; reflexivity.
  - destruct (Z.eq_dec (Z.abs n) (2 ^ 53)) as [H53|H53].
    + exists (S754_finite (n <? 0) (2 ^ 52) 1). split; [reflexivity|].
      rewrite SF2R_finite. unfold F2R. change (powerRZ 2 1) with (2 * 1)%R.
      destruct (n <? 0) eqn:Hs; [apply Z.ltb_lt in Hs|apply Z.ltb_ge in Hs].
      * replace n with (- 2 ^ 53) by lia. rewrite opp_IZR.
        change (Zpos (2 ^ 52)) with (2 ^ 52). rewrite <- !pow2_IZR by lia.
        change (powerRZ 2 53) with (2 * powerRZ 2 52)%R. ring.
      * replace n with (2 ^ 53) by lia.
        change (Zpos (2 ^ 52)) with (2 ^ 52). rewrite <- !pow2_IZR by lia.
        change (powerRZ 2 53) with (2 * powerRZ 2 52)%R. ring.
    + set (p := Z.to_pos (Z.abs n)).
      assert (Hp : Zpos p = Z.abs n) by (unfold p; rewrite Z2Pos.id; lia).
      pose proof (Zdigits2_le (Zpos p) 53 ltac:(lia) ltac:(lia)) as Hd. cbn [Zdigits2] in Hd.
      set (d := Zpos (digits2_pos p)) in *.
      set (m := Z.to_pos (Zpos p * 2 ^ (53 - d))).
      assert (Hpow : 0 < 2 ^ (53 - d)) by (apply Z.pow_pos_nonneg; lia).
      assert (Hm : Zpos m = Zpos p * 2 ^ (53 - d)) by (unfold m; rewrite Z2Pos.id; lia).
      pose proof (digits2_shift p (53 - d) ltac:(lia)) as Hdm.
      rewrite <- Hm in Hdm. cbn [Zdigits2] in Hdm. fold d in Hdm.
      exists (S754_finite (n <? 0) m (d - 53)). split.
      * unfold finite_valid. cbn [is_finite valid_binary andb].
        unfold SpecFloat.bounded, canonical_mantissa. apply andb_true_iff. split.
        -- apply Z.eqb_eq. rewrite Hdm, fexp_eq. lia.
        -- apply Z.leb_le. unfold emax, prec. lia.
      * rewrite SF2R_finite.
        assert (Hv : F2R (Zpos m) (d - 53) = IZR (Z.abs n)).
        { rewrite Hm. replace (53 - d) with (0 - (d - 53)) by ring.
          rewrite <- F2R_shift by lia. unfold F2R. change (powerRZ 2 0) with 1%R.
          rewrite Hp. ring. }
        rewrite Hv.
        destruct (n <? 0) eqn:Hs; [apply Z.ltb_lt in Hs|apply Z.ltb_ge in Hs].
        -- rewrite Z.abs_neq, opp_IZR by lia. ring.
        -- rewrite Z.abs_eq by lia. reflexivity.
Qed.

Lemma of_Z_rounded (n : Z) : rounded (IZR n) (of_Z n).
Proof.
  replace (IZR n) with (F2R n 0).
  - apply binary_normalize_rounded.
  - unfold F2R. change (powerRZ 2 0) with 1%R. ring.
Qed.

Lemma rounded_representable (x : R) (res A : number) :
  rounded x res -> finite_valid A = true -> SF2R A = x ->
  finite_valid res = true /\ SF2R res = x.
Proof.
  intros [Hb _] HA Hx. destruct (Hb A A HA HA ltac:(lra)) as [Hf Hv]. split; [exact Hf|lra].
Qed.

Lemma of_Z_exact (n : Z) :
  Z.abs n <= 2 ^ 53 -> finite_valid (of_Z n) = true /\ SF2R (of_Z n) = IZR n.
Proof.
  intros Hn. destruct (representable_int n Hn) as (A & HA & Hv).
  exact (rounded_representable _ _ A (of_Z_rounded n) HA Hv).
Qed.

Lemma SF2R_to_Z (x : number) (n : Z) :
  is_finite x = true -> SF2R x = IZR n -> to_Z x = Some n.
Proof.
  destruct x as [s| | |s m e]; try discriminate; intros _ Hv.
  - cbn [SF2R] in Hv. unfold to_Z. f_equal. apply eq_IZR. exact Hv.
  - rewrite SF2R_F2R in Hv. unfold to_Z. destruct (0 <=? e) eqn:He.
    + apply Z.leb_le in He. f_equal. apply eq_IZR. rewrite <- Hv. unfold F2R.
      rewrite pow2_IZR by assumption.
      destruct s; cbn [cond_Zopp]; rewrite ?opp_IZR, !mult_IZR; ring.
    + apply Z.leb_gt in He.
      assert (Hp : 0 < 2 ^ (- e)) by (apply Z.pow_pos_nonneg; lia).
      assert (Hm : cond_Zopp s (Zpos m) = n * 2 ^ (- e)).
      { apply eq_IZR. rewrite mult_IZR, <- Hv, <- pow2_IZR by lia. unfold F2R.
        rewrite Rmult_assoc, <- pow2_add. replace (e + - e) with 0 by ring.
        change (powerRZ 2 0) with 1%R. ring. }
      assert (Hmm : Zpos m = cond_Zopp s n * 2 ^ (- e)).
      { destruct s; cbn [cond_Zopp] in *; lia. }
      rewrite Hmm, Z.mod_mul, Z.eqb_refl, Z.div_mul by lia.
      f_equal. destruct s; cbn [cond_Zopp]; lia.
Qed.

(** ** [Math.floor] *)

Lemma F2R_div_mod m e : e < 0 ->
  F2R (Zpos m) e = (IZR (Zpos m / 2 ^ (- e)) + IZR (Zpos m mod 2 ^ (- e)) * powerRZ 2 e)%R.
Proof.
  intros He. assert (Hp : 0 < 2 ^ (- e)) by (apply Z.pow_pos_nonneg; lia).
  pose proof (Z.div_mod (Zpos m) (2 ^ (- e)) ltac:(lia)) as Hdm.
  unfold F2R. rewrite Hdm at 1. rewrite plus_IZR, mult_IZR, <- pow2_IZR by lia.
  rewrite Rmult_plus_distr_r. f_equal.
  rewrite Rmult_comm, <- Rmult_assoc, <- pow2_add. replace (e + - e) with 0 by ring.
  change (powerRZ 2 0) with 1%R. ring.
Qed.

Lemma frac_bound m e : e < 0 ->
  (0 <= IZR (Zpos m mod 2 ^ (- e)) * powerRZ 2 e < 1)%R /\
  (Zpos m mod 2 ^ (- e) <> 0 -> (0 < IZR (Zpos m mod 2 ^ (- e)) * powerRZ 2 e)%R).
Proof.
  intros He. assert (Hp : 0 < 2 ^ (- e)) by (apply Z.pow_pos_nonneg; lia).
  pose proof (Z.mod_pos_bound (Zpos m) (2 ^ (- e)) Hp) as [H0 H1].
  pose proof (pow2_pos e) as Hpe.
  assert (H2 : (IZR (2 ^ (- e)) * powerRZ 2 e = 1)%R).
  { rewrite <- pow2_IZR, <- pow2_add by lia. replace (- e + e) with 0 by ring. reflexivity. }
  apply IZR_le in H0. apply IZR_lt in H1.
  split; [split|].
  - apply Rmult_le_pos; lra.
  - rewrite <- H2. apply Rmult_lt_compat_r; assumption.
  - intros Hne. apply Rmult_lt_0_compat; [|assumption].
    apply IZR_lt. pose proof (Z.mod_pos_bound (Zpos m) (2 ^ (- e)) Hp). lia.
Qed.

(** [Math.floor] of a finite number is the greatest integer not above it. *)
Theorem Math_floor_correct (x : number) :
  finite_valid x = true ->
  exists n : Z,
    finite_valid (Math_floor x) = true /\ SF2R (Math_floor x) = IZR n /\
    (IZR n <= SF2R x < IZR n + 1)%R.
Proof.
  intros Hx. destruct (finite_valid_cases x Hx) as [[s ->]|(s & m & e & -> & Hc & He)].
  - exists 0. cbn. split; [reflexivity|split; [reflexivity|lra]].
  - unfold Math_floor. destruct (0 <=? e) eqn:H0.
    + apply Z.leb_le in H0. exists (cond_Zopp s (Zpos m * 2 ^ e)).
      assert (Hv : SF2R (S754_finite s m e) = IZR (cond_Zopp s (Zpos m * 2 ^ e))).
      { apply to_Z_SF2R. unfold to_Z. apply Z.leb_le in H0. now rewrite H0. }
      split; [exact Hx|]. split; [exact Hv|]. rewrite Hv. lra.
    + apply Z.leb_gt in H0.
      destruct (canon_facts _ _ Hc) as (Hd & _ & _).
      pose proof (digits2_bounds m) as [_ Hu].
      assert (Hm : Zpos m < 2 ^ 53).
      { eapply Z.lt_le_trans; [exact Hu|]. apply Z.pow_le_mono_r; lia. }
      assert (Hp : 0 < 2 ^ (- e)) by (apply Z.pow_pos_nonneg; lia).
      assert (Hq : 0 <= Zpos m / 2 ^ (- e) < 2 ^ 53).
      { split; [apply Z.div_pos; lia|].
        apply Z.le_lt_trans with (Zpos m); [|exact Hm].
        apply Z.div_le_upper_bound; [lia|]. nia. }
      pose proof (F2R_div_mod m e H0) as Hdm.
      destruct (frac_bound m e H0) as [[Hf0 Hf1] Hfpos].
      rewrite SF2R_finite.
      destruct s.
      * destruct (Zpos m mod 2 ^ (- e) =? 0) eqn:Hr.
        -- apply Z.eqb_eq in Hr. exists (- (Zpos m / 2 ^ (- e))).
           destruct (of_Z_exact (- (Zpos m / 2 ^ (- e))) ltac:(lia)) as [Hf Hv].
           split; [exact Hf|]. split; [exact Hv|].
           rewrite Hdm, Hr, opp_IZR. lra.
        -- apply Z.eqb_neq in Hr. specialize (Hfpos Hr).
           exists (- (Zpos m / 2 ^ (- e) + 1)).
           destruct (of_Z_exact (- (Zpos m / 2 ^ (- e) + 1)) ltac:(lia)) as [Hf Hv].
           split; [exact Hf|]. split; [exact Hv|].
           rewrite Hdm, opp_IZR, plus_IZR. lra.
      * exists (Zpos m / 2 ^ (- e)).
        destruct (of_Z_exact (Zpos m / 2 ^ (- e)) ltac:(lia)) as [Hf Hv].
        split; [exact Hf|]. split; [exact Hv|]. rewrite Hdm. lra.
Qed.

(** ** Draws *)

Lemma draw_bound (r : number) :
  is_draw r = true ->
  finite_valid r = true /\ (0 <= SF2R r <= 1 - powerRZ 2 (-53))%R.
Proof.
  assert (Hu : (IZR (2 ^ 53) * powerRZ 2 (-53) = 1)%R).
  { rewrite <- pow2_IZR, <- pow2_add by lia. reflexivity. }
  pose proof (pow2_pos (-53)) as Hup.
  assert (Hu1 : (powerRZ 2 (-53) <= 1)%R).
  { change 1%R with (powerRZ 2 0). apply pow2_le. lia. }
  destruct r as [[|]| | |[|] m e]; try discriminate.
  - intros _. split; [reflexivity|]. cbn [SF2R]. lra.
  - unfold is_draw. intros H. apply andb_true_iff in H as [Hb Hlt].
    assert (Hfv : finite_valid (S754_finite false m e) = true) by exact Hb.
    destruct (of_Z_exact 1 ltac:(lia)) as [Hf1 Hv1].
    apply (SFltb_iff _ _ Hfv Hf1) in Hlt. rewrite Hv1, SF2R_finite in Hlt.
    split; [exact Hfv|]. rewrite SF2R_finite.
    pose proof (F2R_pos m e) as Hpos. split; [lra|].
    destruct (finite_valid_cases _ Hfv) as [[s Hz]|(s' & m' & e' & Heq & Hc & _)];
      [discriminate|]. inversion Heq; subst s' m' e'.
    destruct (canon_facts _ _ Hc) as (Hd & He & Hn).
    pose proof (F2R_mag m e) as [Hl Hh].
    destruct (Z_le_gt_dec (-52) e) as [Hge|Hlt52].
    + (* normal with exponent at least -52: at least 1 *)
      exfalso. assert (Zpos (digits2_pos m) = 53) by lia.
      assert (H1 : (powerRZ 2 0 <= powerRZ 2 (Zpos (digits2_pos m) + e - 1))%R)
        by (apply pow2_le; lia).
      change (powerRZ 2 0) with 1%R in H1. lra.
    + destruct (Z.eq_dec e (-53)) as [->|Hne].
      * assert (Hm : Zpos m < 2 ^ 53).
        { apply (F2R_lt_inv _ _ (-53)). unfold F2R at 2. rewrite Hu. exact Hlt. }
        assert (Hm' : Zpos m <= 2 ^ 53 - 1) by lia.
        apply IZR_le in Hm'. rewrite minus_IZR in Hm'. unfold F2R. nra.
      * assert (H1 : (powerRZ 2 (Zpos (digits2_pos m) + e) <= powerRZ 2 (-1))%R)
          by (apply pow2_le; lia).
        pose proof (pow2_add 1 (-1)) as H2.
        change (powerRZ 2 (1 + -1)) with 1%R in H2.
        change (powerRZ 2 1) with (2 * 1)%R in H2.
        assert (H3 : (powerRZ 2 (-53) <= powerRZ 2 (-1))%R) by (apply pow2_le; lia).
        lra.
Qed.

Lemma rounded_between (x : R) (res : number) (a b : Z) :
  rounded x res -> Z.abs a <= 2 ^ 53 -> Z.abs b <= 2 ^ 53 ->
  (IZR a <= x <= IZR b)%R ->
  finite_valid res = true /\ (IZR a <= SF2R res <= IZR b)%R.
Proof.
  intros [Hb _] Ha Hbb Hx.
  destruct (representable_int a Ha) as (A & HA & HvA).
  destruct (representable_int b Hbb) as (B & HB & HvB).
  rewrite <- HvA, <- HvB in *. exact (Hb A B HA HB Hx).
Qed.

(** The quote on a base price [bp] whose 2% is the integer [C]. *)
Lemma quote_bounds (bp c r : number) (BP C : Z) :
  finite_valid bp = true -> SF2R bp = IZR BP ->
  finite_valid c = true -> SF2R c = IZR C ->
  0 <= C -> Z.abs BP + C <= 2 ^ 53 ->
  is_draw r = true ->
  let change := ((r *! of_Z 2 -! of_Z 1) *! c) in
  let price := (bp +! change) in
  finite_valid change = true /\ (IZR (- C) <= SF2R change <= IZR C)%R /\
  finite_valid price = true /\ (IZR (BP - C) <= SF2R price <= IZR (BP + C))%R.
Proof.
  intros Hbp Hvbp Hc Hvc HC Hsum Hr change price.
  destruct (draw_bound r Hr) as [Hfr [Hr0 Hr1]].
  pose proof (pow2_pos (-53)) as Hu.
  destruct (of_Z_exact 2 ltac:(lia)) as [Hf2 Hv2].
  destruct (of_Z_exact 1 ltac:(lia)) as [Hf1 Hv1].
  (* r * 2 *)
  pose proof (SFmul_rounded r (of_Z 2) Hfr Hf2) as R1. rewrite Hv2 in R1.
  destruct (rounded_between _ _ 0 2 R1 ltac:(lia) ltac:(lia) ltac:(lra)) as [Ft1 [L1 U1]].
  (* - 1 *)
  pose proof (SFsub_rounded _ (of_Z 1) Ft1 Hf1) as R2. rewrite Hv1 in R2.
  destruct (rounded_between _ _ (-1) 1 R2 ltac:(lia) ltac:(lia) ltac:(lra)) as [Ft2 [L2 U2]].
  (* * c *)
  pose proof (SFmul_rounded _ c Ft2 Hc) as R3. rewrite Hvc in R3.
  assert (HCR : (0 <= IZR C)%R) by (apply IZR_le; lia).
  assert (B3 : (IZR (- C) <= SF2R (r *! of_Z 2 -! of_Z 1) * IZR C <= IZR C)%R).
  { rewrite opp_IZR.
    pose proof (Rmult_le_pos (1 - SF2R (r *! of_Z 2 -! of_Z 1)) (IZR C) ltac:(lra) HCR).
    pose proof (Rmult_le_pos (SF2R (r *! of_Z 2 -! of_Z 1) - -1) (IZR C) ltac:(lra) HCR).
    split; lra. }
  destruct (rounded_between _ _ (- C) C R3 ltac:(lia) ltac:(lia) B3) as [Ft3 [L3 U3]].
  fold change in Ft3, L3, U3.
  (* bp + change *)
  pose proof (SFadd_rounded bp change Hbp Ft3) as R4. rewrite Hvbp in R4.
  rewrite opp_IZR in L3.
  assert (B4 : (IZR (BP - C) <= IZR BP + SF2R change <= IZR (BP + C))%R).
  { rewrite minus_IZR, plus_IZR. lra. }
  destruct (rounded_between _ _ (BP - C) (BP + C) R4 ltac:(lia) ltac:(lia) B4) as [Ft4 B5].
  fold price in Ft4, B5. rewrite opp_IZR.
  repeat split; try assumption; lra.
Qed.

(** The volume is an integer from 500000 up to 1499999. *)
Lemma volume_bounds (r : number) :
  is_draw r = true ->
  exists n : Z, 500000 <= n < 1500000 /\ to_Z (volume_of r) = Some n /\
                finite_valid (volume_of r) = true.
Proof.
  intros Hr. destruct (draw_bound r Hr) as [Hfr [Hr0 Hr1]].
  pose proof (pow2_pos (-53)) as Hu. set (u := powerRZ 2 (-53)) in *.
  destruct (of_Z_exact 1000000 ltac:(lia)) as [HfM HvM].
  destruct (of_Z_exact 500000 ltac:(lia)) as [HfH HvH].
  pose proof (SFmul_rounded r (of_Z 1000000) Hfr HfM) as R1. rewrite HvM in R1.
  destruct (rounded_between _ _ 0 1000000 R1 ltac:(lia) ltac:(lia) ltac:(lra)) as [Ft [L U]].
  set (t := r *! of_Z 1000000) in *.
  (* the number just below 1000000 *)
  set (P := S754_finite false 8589934591999999 (-33)).
  assert (HfP : finite_valid P = true) by reflexivity.
  assert (Hw : powerRZ 2 (-33) = (1048576 * u)%R).
  { unfold u. change 1048576%R with (IZR (2 ^ 20)). rewrite <- pow2_IZR, <- pow2_add by lia.
    reflexivity. }
  assert (HM : (8589934592000000 * powerRZ 2 (-33) = 1000000)%R).
  { change 8589934592000000%R with (IZR (1000000 * 2 ^ 33)). rewrite mult_IZR.
    rewrite <- (pow2_IZR 33), Rmult_assoc, <- pow2_add by lia.
    change (powerRZ 2 (33 + -33)) with 1%R. ring. }
  assert (HvP : SF2R P = (1000000 - powerRZ 2 (-33))%R).
  { unfold P. cbn [SF2R cond_Zopp]. lra. }
  assert (Hlt : (SF2R t < 1000000)%R).
  { destruct (Rle_dec (SF2R r * 1000000) (SF2R P)) as [Hle|Hgt].
    - destruct (representable_int 0 ltac:(lia)) as (Z0' & HZ & HvZ).
      destruct (proj1 R1 Z0' P HZ HfP ltac:(rewrite HvZ; lra)) as [_ [_ Hup]]. lra.
    - destruct (proj2 R1 ltac:(unfold finite_valid in Ft; apply andb_true_iff in Ft; tauto))
        as [_ Hnear].
      specialize (Hnear P HfP).
      pose proof (Rle_abs (SF2R t - SF2R r * 1000000)) as Ha.
      rewrite (Rabs_left1 (SF2R P - _)) in Hnear by lra. lra. }
  destruct (Math_floor_correct t Ft) as (n & Hff & Hvf & Hn0 & Hn1).
  assert (Hn : 0 <= n < 1000000).
  { split.
    - assert (-1 < n); [|lia]. apply lt_IZR. lra.
    - apply lt_IZR. lra. }
  pose proof (SFadd_rounded _ (of_Z 500000) Hff HfH) as R2. rewrite Hvf, HvH in R2.
  destruct (representable_int (n + 500000) ltac:(lia)) as (A & HA & HvA).
  destruct (rounded_representable _ _ A R2 HA ltac:(rewrite HvA, plus_IZR; reflexivity))
    as [Hfv Hvv].
  exists (n + 500000). split; [lia|]. split; [|exact Hfv].
  apply SF2R_to_Z.
  - unfold finite_valid in Hfv. apply andb_true_iff in Hfv. tauto.
  - unfold volume_of. fold t. rewrite Hvv, plus_IZR. reflexivity.
Qed.

(* ================================================================== *)
(** * Strings: substring search, trimming *)

Lemma append_assoc (a b c : string) : (a ++ b) ++ c = a ++ b ++ c.
Proof. induction a as [|x a IH]; simpl; [reflexivity|now rewrite IH]. Qed.

Lemma append_nil_r (a : string) : a ++ "" = a.
Proof. induction a as [|x a IH]; simpl; [reflexivity|now rewrite IH]. Qed.

Lemma prefix_spec (t s : string) : prefix t s = true <-> exists b, s = t ++ b.
Proof.
  revert s. induction t as [|c t IH]; intros s.
  - split; [intros _; now exists s|intros _; destruct s; reflexivity].
  - destruct s as [|d s]; simpl.
    + split; [discriminate|intros [b Hb]; discriminate].
    + destruct (ascii_dec c d) as [Heq|Hne].
      * subst d. rewrite IH.
        split; intros [b Hb]; exists b; [now rewrite Hb|now inversion Hb].
      * split; [discriminate|]. intros [b Hb]. inversion Hb. congruence.
Qed.

Lemma includes_spec (s t : string) : includes s t = true <-> occurs t s.
Proof.
  unfold occurs. induction s as [|c s IH].
  - cbn [includes]. rewrite orb_false_r, prefix_spec. split.
    + intros [b Hb]. now exists "", b.
    + intros (a & b & Hab). destruct a; [now exists b|discriminate].
  - cbn [includes]. rewrite orb_true_iff, prefix_spec, IH. split.
    + intros [[b Hb]|(a & b & Hab)].
      * now exists "", b.
      * exists (String c a), b. simpl. now rewrite Hab.
    + intros (a & b & Hab). destruct a as [|x a].
      * left. now exists b.
      * right. exists a, b. simpl in Hab. now inversion Hab.
Qed.

Lemma includes_false (s t : string) : includes s t = false <-> ~ occurs t s.
Proof.
  rewrite <- includes_spec. destruct (includes s t); split; congruence.
Qed.

Lemma trimEnd_empty (s : string) : trimEnd s = "" <-> all_whitespace s = true.
Proof.
  induction s as [|c s IH]; simpl; [tauto|].
  destruct (trimEnd s) eqn:Ht.
  - destruct (is_whitespace c); simpl.
    + split; intros _; [now apply IH|reflexivity].
    + split; discriminate.
  - split; [discriminate|]. intros H. apply andb_true_iff in H as [_ H].
    apply IH in H. discriminate.
Qed.

Lemma trimStart_whitespace (s : string) :
  all_whitespace (trimStart s) = all_whitespace s.
Proof.
  induction s as [|c s IH]; simpl; [reflexivity|].
  destruct (is_whitespace c) eqn:Hc; simpl; [exact IH|now rewrite Hc].
Qed.

Lemma trim_empty (s : string) : is_empty (trim s) = true <-> all_whitespace s = true.
Proof.
  unfold trim. rewrite <- trimStart_whitespace, <- trimEnd_empty.
  destruct (trimEnd (trimStart s)); simpl; split; congruence.
Qed.

(* ================================================================== *)
(** * The data generator *)

Lemma basePrice_cases (symbol : string) :
  In (symbol, basePrice symbol) basePrices /\ own basePrices symbol = Some (basePrice symbol)
  \/ own basePrices symbol = None /\ basePrice symbol = of_Z 100.
Proof.
  unfold basePrice, basePrices. cbn [own].
  repeat match goal with
         | |- context [String.eqb symbol ?k] =>
             destruct (String.eqb_spec symbol k) as [->|?]
         end; try (left; split; [cbn [In]; tauto|reflexivity]).
  right. split; reflexivity.
Qed.

Lemma basePrice_truthy (symbol : string) : truthy (basePrice symbol) = true.
Proof.
  destruct (basePrice_cases symbol) as [[Hin _]|[_ ->]]; [|reflexivity].
  unfold basePrices in Hin. cbn [In] in Hin.
  repeat (destruct Hin as [Hin|Hin]; [inversion Hin; reflexivity|]).
  contradiction.
Qed.

Lemma lookup_inherited {V : Type} (o : list (string * V)) (key : string) :
  lookup o key = Inherited <-> own o key = None /\ inherited key = true.
Proof.
  unfold lookup. destruct (own o key); [split; [discriminate|intros [? _]; discriminate]|].
  destruct (inherited key); split; try discriminate; try tauto.
  intros [_ ?]; discriminate.
Qed.

(** The object [getMockMarketData] builds, and the one draw it takes. *)
Lemma getMockMarketData_eq (symbol : string) (rng : nat -> number) (k : nat) :
  getMockMarketData symbol rng k =
  (match lookup basePrices symbol with
   | Inherited => NotMarketData
   | _ =>
       let change :=
         ((rng k *! of_Z 2 -! of_Z 1) *! (basePrice symbol *! decimal 2 2))%num in
       Quote {| symbol := symbol;
                price := (basePrice symbol +! change)%num;
                change := change;
                changePercent := ((change /! basePrice symbol) *! of_Z 100)%num |}
   end, S k).
Proof.
  unfold getMockMarketData, lookup.
  pose proof (basePrice_truthy symbol) as Ht. unfold basePrice in *.
  destruct (own basePrices symbol) as [v|].
  - rewrite Ht. reflexivity.
  - destruct (inherited symbol); reflexivity.
Qed.

Lemma watched_not_inherited (s : string) :
  In s WATCHED_SYMBOLS -> lookup basePrices s <> Inherited.
Proof.
  unfold WATCHED_SYMBOLS. cbn [In]. intros H.
  repeat (destruct H as [H|H]; [subst s; discriminate|]). contradiction.
Qed.

Section PageFacts.

Variable h : Host.




(** What [getMockDetailedAnalysis] returns, and the two draws it takes. *)
Lemma getMockDetailedAnalysis_eq (symbol : string) (rng : nat -> number) (k : nat) :
  getMockDetailedAnalysis h symbol rng k =
  (match fst (getMockMarketData symbol rng k) with
   | NotMarketData => TypeError
   | Quote data =>
       Normal ("Analysis for " ++ display_name h symbol ++ ":" ++ nl ++
               String.concat nl (stats_of h data (volume_of (rng (S k)))))
   end, S (S k)).
Proof.
  unfold getMockDetailedAnalysis, bind.
  rewrite getMockMarketData_eq. cbn [fst Math_random].
  destruct (lookup basePrices symbol); reflexivity.
Qed.

Lemma analysis_shape (symbol : string) (rng : nat -> number) (k : nat) :
  fst (getMockDetailedAnalysis h symbol rng k) = TypeError \/
  exists body, fst (getMockDetailedAnalysis h symbol rng k) = Normal ("Analysis for " ++ body).
Proof.
  rewrite getMockDetailedAnalysis_eq. cbn [fst].
  destruct (fst (getMockMarketData symbol rng k)); [right|now left].
  eexists. reflexivity.
Qed.

Lemma scan_find (entries : list (string * string)) (low : string)
      (rng : nat -> number) (k : nat) :
  scan h entries low rng k =
  match find (fun e => includes low (toLowerCase (snd e))) entries with
  | Some e => getMockDetailedAnalysis h (fst e) rng k
  | None => (Normal "", k)
  end.
Proof.
  induction entries as [|[s n] rest IH]; [reflexivity|].
  cbn [scan find snd fst].
  destruct (includes low (toLowerCase n)); [reflexivity|exact IH].
Qed.

(** The responder answers with the report on the selected symbol, or with
    the fallback message and no draw when no symbol is selected. *)
Lemma respond_selected (text : string) (rng : nat -> number) (k : nat) :
  respond h text rng k =
  match selected text with
  | Some s => getMockDetailedAnalysis h s rng k
  | None => (Normal fallback, k)
  end.
Proof.
  unfold respond, bind, selected, Object_entries.
  rewrite scan_find. change (fun e => includes (toLowerCase text) (toLowerCase (snd e)))
    with (matches text).
  destruct (find (matches text) SYMBOL_NAMES) as [[s n]|]; [|reflexivity].
  cbn [option_map fst].
  destruct (analysis_shape s rng k) as [H|[body H]];
    destruct (getMockDetailedAnalysis h s rng k) as [c k']; cbn [fst] in H; subst c;
    reflexivity.
Qed.

Lemma find_first {A : Type} (f : A -> bool) (before after : list A) (x : A) :
  (forall y, In y before -> f y = false) -> f x = true ->
  find f (before ++ x :: after)%list = Some x.
Proof.
  intros Hb Hx. induction before as [|y before IH]; cbn [app find].
  - now rewrite Hx.
  - rewrite (Hb y) by now left. apply IH. intros z Hz. apply Hb. now right.
Qed.

End PageFacts.

(* ================================================================== *)
(** * The quote invariant *)

(** Whenever [getMockMarketData] returns a Quote, the Quote has
    [price = basePrice symbol + change] and
    [changePercent = change / basePrice symbol * 100], where [basePrice] is
    the constant of the table (4500, 35000, 14000, 1900, 45000) and 100 for
    a symbol outside it. *)
Lemma quote_invariant (sym : string) (rng : nat -> number) (k : nat) (d : MarketData) :
  fst (getMockMarketData sym rng k) = Quote d ->
  price d = (basePrice sym +! change d)%num /\
  changePercent d = (change d /! basePrice sym *! of_Z 100)%num /\
  symbol d = sym /\
  basePrice "^GSPC" = of_Z 4500 /\ basePrice "^DJI" = of_Z 35000 /\
  basePrice "^IXIC" = of_Z 14000 /\ basePrice "GC=F" = of_Z 1900 /\
  basePrice "BTC-USD" = of_Z 45000 /\
  (~ In sym WATCHED_SYMBOLS -> basePrice sym = of_Z 100).
Proof.
  intros H. rewrite getMockMarketData_eq in H. cbn [fst] in H.
  assert (Hd : d = let change :=
         ((rng k *! of_Z 2 -! of_Z 1) *! (basePrice sym *! decimal 2 2))%num in
       {| symbol := sym;
          price := (basePrice sym +! change)%num;
          change := change;
          changePercent := ((change /! basePrice sym) *! of_Z 100)%num |}).
  { destruct (lookup basePrices sym); [now inversion H|discriminate|now inversion H]. }
  subst d. cbn [price change changePercent symbol].
  repeat (split; [reflexivity|]).
  intros Hnot. destruct (basePrice_cases sym) as [[Hin _]|[_ Hb]]; [|exact Hb].
  exfalso. apply Hnot. unfold basePrices in Hin. cbn [In] in Hin. unfold WATCHED_SYMBOLS.
  cbn [In].
  repeat (destruct Hin as [Hin|Hin]; [inversion Hin; tauto|]). contradiction.
Qed.

Lemma quote_invariant_witness :
  exists d, fst (getMockMarketData "^DJI" sample_rng 0%nat) = Quote d /\
            price d = (of_Z 35000 +! change d)%num.
Proof.
  eexists. split; [vm_compute; reflexivity|].
  exact (proj1 (quote_invariant "^DJI" sample_rng 0%nat _ eq_refl)).
Defined.

(** A Quote is returned exactly for the symbols that do not name a member
    of [Object.prototype]. *)
Lemma quote_returned_iff (sym : string) (rng : nat -> number) (k : nat) :
  (exists d, fst (getMockMarketData sym rng k) = Quote d) <->
  lookup basePrices sym <> Inherited.
Proof.
  rewrite getMockMarketData_eq. cbn [fst].
  destruct (lookup basePrices sym); split; try congruence; try (intros _; eexists; reflexivity).
  intros [d Hd]. discriminate.
Qed.

(** C1, at the symbol "constructor": it is outside the table, so the base
    price of the invariant is the fallback 100, but the lookup finds
    [Object.prototype.constructor] and the object returned is no Quote (its
    [price] is a string, its [change] and [changePercent] are [NaN]): no
    Quote with [price = 100 + change] comes back, whatever the draw. *)
Theorem quote_invariant_fails_on_inherited (rng : nat -> number) (k : nat) :
  ~ In "constructor" WATCHED_SYMBOLS /\
  basePrice "constructor" = of_Z 100 /\
  lookup basePrices "constructor" = Inherited /\
  getMockMarketData "constructor" rng k = (NotMarketData, S k) /\
  ~ exists d, fst (getMockMarketData "constructor" rng k) = Quote d /\
              price d = (basePrice "constructor" +! change d)%num.
Proof.
  split; [|split; [reflexivity|split; [reflexivity|split]]].
  - unfold WATCHED_SYMBOLS. cbn [In]. intros H.
    repeat (destruct H as [H|H]; [discriminate|]). contradiction.
  - rewrite getMockMarketData_eq. reflexivity.
  - intros (d & Hd & _). rewrite getMockMarketData_eq in Hd. discriminate.
Qed.


(* ================================================================== *)
(** * The refresh *)

Lemma mapM_quotes (l : list string) (rng : nat -> number) (k : nat) :
  (forall s, In s l -> lookup basePrices s <> Inherited) ->
  exists ds : list MarketData,
    mapM getMockMarketData l rng k = (map Quote ds, (k + List.length l)%nat) /\
    map symbol ds = l.
Proof.
  revert k. induction l as [|s l IH]; intros k Hl.
  - exists []. split; [|reflexivity]. cbn [mapM ret map List.length].
    now rewrite Nat.add_0_r.
  - destruct (proj2 (quote_returned_iff s rng k) (Hl s (or_introl eq_refl))) as [d Hd].
    destruct (IH (S k) (fun s' Hs' => Hl s' (or_intror Hs'))) as (ds & Hds & Hsym).
    exists (d :: ds). split.
    + cbn [mapM]. unfold bind at 1.
      pose proof (getMockMarketData_eq s rng k) as Heq.
      destruct (getMockMarketData s rng k) as [r k1]. cbn [fst] in Hd. subst r.
      inversion Heq; subst k1. unfold bind at 1. rewrite Hds.
      unfold ret. cbn [map List.length]. f_equal. lia.
    + cbn [map]. f_equal; [|exact Hsym].
      pose proof (getMockMarketData_eq s rng k) as Heq. rewrite (surjective_pairing (getMockMarketData s rng k)) in Heq.
      rewrite Hd in Heq. destruct (lookup basePrices s); inversion Heq; reflexivity.
Qed.

(** C6. A refresh produces exactly five Quotes, one per watched symbol and
    in the order of the watch-list, and the new snapshot is these five
    Quotes whatever the snapshot before was; messages and input are kept. *)
Theorem refresh_snapshot (st : State) (rng : nat -> number) (k : nat) :
  exists ds : list MarketData,
    marketData (fst (updateMarketData st rng k)) = map Quote ds /\
    List.length ds = 5%nat /\
    map symbol ds = WATCHED_SYMBOLS /\
    (forall i, nth_error (map symbol ds) i = nth_error WATCHED_SYMBOLS i) /\
    (forall st0 : State,
        marketData (fst (updateMarketData st0 rng k)) = map Quote ds) /\
    messages (fst (updateMarketData st rng k)) = messages st /\
    input (fst (updateMarketData st rng k)) = input st /\
    snd (updateMarketData st rng k) = (k + 5)%nat.
Proof.
  destruct (mapM_quotes WATCHED_SYMBOLS rng k watched_not_inherited) as (ds & Hds & Hsym).
  exists ds. unfold updateMarketData, bind. rewrite Hds. cbn [fst snd ret marketData messages input].
  repeat split; try reflexivity; try assumption.
  - rewrite <- (length_map symbol), Hsym. reflexivity.
  - intros i. now rewrite Hsym.
Qed.

(* ================================================================== *)
(** * The query responder *)

Section Responder.

Variable h : Host.

Lemma selected_none (text : string) :
  selected text = None <->
  forall s n, In (s, n) SYMBOL_NAMES -> ~ occurs (toLowerCase n) (toLowerCase text).
Proof.
  unfold selected. split.
  - intros H s n Hin. destruct (find (matches text) SYMBOL_NAMES) eqn:Hf; [discriminate|].
    apply includes_false. exact (find_none _ _ Hf (s, n) Hin).
  - intros H. destruct (find (matches text) SYMBOL_NAMES) as [[s n]|] eqn:Hf; [|reflexivity].
    apply find_some in Hf as [Hin Hm]. apply includes_spec in Hm.
    exfalso. exact (H s n Hin Hm).
Qed.

(** C3. The responder lowercases the text, goes through the table in the
    order ^GSPC, ^DJI, ^IXIC, GC=F, BTC-USD and answers with the report of
    the Detail Analyzer on the first symbol whose lowercased display name is
    a substring of the lowercased text: an entry that matches wins over all
    matching entries after it. *)
Theorem first_match_wins (text : string) (before after : list (string * string))
        (sym name : string) (rng : nat -> number) (k : nat) :
  Object_entries SYMBOL_NAMES = (before ++ (sym, name) :: after)%list ->
  occurs (toLowerCase name) (toLowerCase text) ->
  (forall s n, In (s, n) before -> ~ occurs (toLowerCase n) (toLowerCase text)) ->
  respond h text rng k = getMockDetailedAnalysis h sym rng k /\
  map fst (Object_entries SYMBOL_NAMES) = ["^GSPC"; "^DJI"; "^IXIC"; "GC=F"; "BTC-USD"].
Proof.
  intros Htab Hocc Hbefore. split; [|reflexivity].
  rewrite respond_selected. unfold selected.
  unfold Object_entries in Htab. rewrite Htab.
  rewrite (find_first (matches text) before after (sym, name)).
  - reflexivity.
  - intros [s n] Hin. apply includes_false. exact (Hbefore s n Hin).
  - apply includes_spec. exact Hocc.
Qed.

(** C4. The responder returns the fixed fallback message exactly when no
    display name of the table occurs, lowercased, in the lowercased text;
    it then takes no draw. The text "banana" is such a text. *)
Theorem fallback_iff_no_match (text : string) (rng : nat -> number) (k : nat) :
  (fst (respond h text rng k) = Normal fallback <->
   forall s n, In (s, n) SYMBOL_NAMES -> ~ occurs (toLowerCase n) (toLowerCase text)) /\
  (fst (respond h text rng k) = Normal fallback -> snd (respond h text rng k) = k) /\
  respond h "banana" rng k =
  (Normal "I can provide detailed analysis for S&P 500, Dow Jones, NASDAQ, Gold, and Bitcoin. Please ask about one of these markets!", k).
Proof.
  assert (Hsel : fst (respond h text rng k) = Normal fallback -> selected text = None).
  { rewrite respond_selected. destruct (selected text) as [s|]; [|reflexivity].
    intros H. destruct (analysis_shape h s rng k) as [Ht|[body Hb]].
    - rewrite Ht in H. discriminate.
    - rewrite Hb in H. inversion H. }
  split; [|split].
  - rewrite <- selected_none. split; [exact Hsel|].
    intros Hn. rewrite respond_selected, Hn. reflexivity.
  - intros H. rewrite respond_selected, (Hsel H). reflexivity.
  - rewrite respond_selected. reflexivity.
Qed.

(** C8. Matching is case-insensitive: two texts that are equal after
    lowercasing select the same symbol of the table, or both none, and get
    the same response from the same draws. *)
Theorem case_insensitive (text1 text2 : string) :
  toLowerCase text1 = toLowerCase text2 ->
  selected text1 = selected text2 /\
  forall rng k, respond h text1 rng k = respond h text2 rng k.
Proof.
  intros H.
  assert (Hs : selected text1 = selected text2).
  { unfold selected, matches. now rewrite H. }
  split; [exact Hs|]. intros rng k. now rewrite !respond_selected, Hs.
Qed.

(* ================================================================== *)
(** * The message history *)

Lemma handleSubmit_messages (st : State) (rng : nat -> number) (k : nat) :
  exists suffix, messages (fst (handleSubmit h st rng k)) = (messages st ++ suffix)%list.
Proof.
  unfold handleSubmit. destruct (is_empty (trim (input st))).
  - exists []. cbn. now rewrite app_nil_r.
  - unfold bind. destruct (respond h (input st) rng k) as [[response|] k'].
    + eexists. cbn [fst ret messages]. rewrite <- app_assoc. reflexivity.
    + eexists. cbn [fst ret messages]. reflexivity.
Qed.

Lemma step_messages (ev : Event) (st : State) (rng : nat -> number) (k : nat) :
  exists suffix, messages (fst (step h ev st rng k)) = (messages st ++ suffix)%list.
Proof.
  destruct ev as [| |value]; cbn [step].
  - apply handleSubmit_messages.
  - exists []. unfold updateMarketData, bind.
    destruct (mapM getMockMarketData WATCHED_SYMBOLS rng k). cbn. now rewrite app_nil_r.
  - exists []. cbn. now rewrite app_nil_r.
Qed.

(** C9. The message history is append-only: after any sequence of
    submissions, refreshes and edits of the input field the history is the
    history before followed by new messages, so no message is changed,
    moved or removed. *)
Theorem history_append_only (evs : list Event) (st : State) (rng : nat -> number) (k : nat) :
  exists suffix, messages (fst (run h evs st rng k)) = (messages st ++ suffix)%list.
Proof.
  revert st k. induction evs as [|ev evs IH]; intros st k.
  - exists []. cbn. now rewrite app_nil_r.
  - cbn [run]. unfold bind.
    destruct (step_messages ev st rng k) as [s1 H1].
    destruct (step h ev st rng k) as [st1 k1]. cbn [fst] in H1.
    destruct (IH st1 k1) as [s2 H2].
    exists (s1 ++ s2)%list. rewrite H2, H1, app_assoc. reflexivity.
Qed.

(** C10. Submitting an input that is empty or all white space does
    nothing: messages, snapshot and input field stay as they are, no draw
    is taken and no response is produced. *)
Theorem blank_submit_noop (st : State) (rng : nat -> number) (k : nat) :
  all_whitespace (input st) = true ->
  handleSubmit h st rng k = (st, k).
Proof.
  intros H. unfold handleSubmit. apply trim_empty in H. rewrite H. reflexivity.
Qed.

End Responder.

Lemma case_insensitive_witness :
  selected "GOLD" = selected "gold" /\ selected "gold" = Some "GC=F".
Proof.
  split; [|reflexivity].
  exact (proj1 (case_insensitive sample_host "GOLD" "gold" eq_refl)).
Defined.

Lemma first_match_wins_witness :
  respond sample_host "Is Bitcoin the new GOLD?" sample_rng 0%nat =
  getMockDetailedAnalysis sample_host "GC=F" sample_rng 0%nat.
Proof.
  refine (proj1 (first_match_wins sample_host "Is Bitcoin the new GOLD?"
                   [("^GSPC", "S&P 500"); ("^DJI", "Dow Jones"); ("^IXIC", "NASDAQ")]
                   [("BTC-USD", "Bitcoin")] "GC=F" "Gold" sample_rng 0%nat eq_refl _ _)).
  - apply includes_spec. reflexivity.
  - intros s n Hin. apply includes_false. cbn [In] in Hin.
    repeat (destruct Hin as [Hin|Hin]; [inversion Hin; reflexivity|]). contradiction.
Defined.

Lemma blank_submit_noop_witness :
  let st := {| messages := []; input := "   "; marketData := []; loading := false |} in
  handleSubmit sample_host st sample_rng 0%nat = (st, 0%nat).
Proof.
  intros st. apply (blank_submit_noop sample_host st sample_rng 0%nat). reflexivity.
Defined.

(* ================================================================== *)
(** * Symbols outside the table *)

(** A symbol that is neither in the table nor a member of
    [Object.prototype] gets a Quote on the base price 100 and a report
    headed by the symbol itself. *)
Lemma unrecognized_symbol (h : Host) (sym : string) (rng : nat -> number) (k : nat) :
  ~ In sym WATCHED_SYMBOLS -> inherited sym = false ->
  exists d,
    getMockMarketData sym rng k = (Quote d, S k) /\
    price d = (of_Z 100 +! change d)%num /\
    change d = ((rng k *! of_Z 2 -! of_Z 1) *! (of_Z 100 *! decimal 2 2))%num /\
    getMockDetailedAnalysis h sym rng k =
    (Normal ("Analysis for " ++ sym ++ ":" ++ nl ++
             String.concat nl (stats_of h d (volume_of (rng (S k))))), S (S k)).
Proof.
  intros Hnot Hinh.
  assert (Hown : own basePrices sym = None).
  { destruct (basePrice_cases sym) as [[Hin _]|[Ho _]]; [|exact Ho].
    exfalso. apply Hnot. unfold basePrices in Hin. cbn [In] in Hin.
    unfold WATCHED_SYMBOLS. cbn [In].
    repeat (destruct Hin as [Hin|Hin]; [inversion Hin; tauto|]). contradiction. }
  assert (Hb : basePrice sym = of_Z 100) by (unfold basePrice; now rewrite Hown).
  assert (Hl : lookup basePrices sym = Absent) by (unfold lookup; now rewrite Hown, Hinh).
  assert (Hn : own SYMBOL_NAMES sym = None).
  { revert Hnot. unfold WATCHED_SYMBOLS, SYMBOL_NAMES. cbn [In own].
    repeat match goal with
           | |- context [String.eqb sym ?x] => destruct (String.eqb_spec sym x) as [->|?]
           end; try tauto. }
  eexists. rewrite getMockDetailedAnalysis_eq, getMockMarketData_eq, Hl, Hb.
  cbn [fst]. split; [reflexivity|]. cbn [price change].
  split; [reflexivity|]. split; [reflexivity|].
  unfold display_name, lookup. rewrite Hn, Hinh. reflexivity.
Qed.

(** C7, at the symbol "constructor", which is not in the table: the lookup
    finds [Object.prototype.constructor], so no Quote on the base price 100
    is returned and the Detail Analyzer throws. *)
Theorem inherited_symbol_breaks_fallback (h : Host) (rng : nat -> number) (k : nat) :
  ~ In "constructor" WATCHED_SYMBOLS /\
  fst (getMockMarketData "constructor" rng k) = NotMarketData /\
  fst (getMockDetailedAnalysis h "constructor" rng k) = TypeError.
Proof.
  split; [|split].
  - unfold WATCHED_SYMBOLS. cbn [In]. intros H.
    repeat (destruct H as [H|H]; [discriminate|]). contradiction.
  - rewrite getMockMarketData_eq. reflexivity.
  - rewrite getMockDetailedAnalysis_eq, getMockMarketData_eq. reflexivity.
Qed.

(* ================================================================== *)
(** * Bounds on the quote and on the volume *)

Lemma SFabs_value (x : number) :
  finite_valid x = true ->
  finite_valid (SFabs x) = true /\ SF2R (SFabs x) = Rabs (SF2R x).
Proof.
  intros Hx. destruct x as [s| | |s m e]; try discriminate.
  - split; [reflexivity|]. cbn [SFabs SF2R]. now rewrite Rabs_R0.
  - split; [exact Hx|]. cbn [SFabs]. rewrite !SF2R_finite.
    pose proof (F2R_pos m e). destruct s.
    + rewrite Rabs_left by lra. ring.
    + rewrite Rabs_right by lra. reflexivity.
Qed.

Lemma within_two_percent_at (sym : string) (BP C : Z) (rng : nat -> number) (k : nat) :
  lookup basePrices sym <> Inherited ->
  finite_valid (basePrice sym) = true -> to_Z (basePrice sym) = Some BP ->
  finite_valid (basePrice sym *! decimal 2 2) = true ->
  to_Z (basePrice sym *! decimal 2 2) = Some C ->
  finite_valid (decimal 98 2 *! basePrice sym) = true ->
  to_Z (decimal 98 2 *! basePrice sym) = Some (BP - C) ->
  finite_valid (decimal 102 2 *! basePrice sym) = true ->
  to_Z (decimal 102 2 *! basePrice sym) = Some (BP + C) ->
  0 <= C -> Z.abs BP + C <= 2 ^ 53 -> 100 * C = 2 * BP ->
  is_draw (rng k) = true ->
  exists d,
    fst (getMockMarketData sym rng k) = Quote d /\
    SFleb (decimal 98 2 *! basePrice sym) (price d) = true /\
    SFleb (price d) (decimal 102 2 *! basePrice sym) = true /\
    SFleb (SFabs (change d)) (basePrice sym *! decimal 2 2) = true /\
    (98 / 100 * SF2R (basePrice sym) <= SF2R (price d)
     <= 102 / 100 * SF2R (basePrice sym))%R.
Proof.
  intros Hl Hfb Hzb Hfc Hzc Hflo Hzlo Hfhi Hzhi HC Hsum H100 Hr.
  apply to_Z_SF2R in Hzb, Hzc, Hzlo, Hzhi.
  destruct (quote_bounds (basePrice sym) (basePrice sym *! decimal 2 2) (rng k) BP C
              Hfb Hzb Hfc Hzc HC Hsum Hr) as (Fch & [Lch Uch] & Fpr & [Lpr Upr]).
  rewrite getMockMarketData_eq. cbn [fst].
  eexists. split.
  { destruct (lookup basePrices sym); [reflexivity|contradiction|reflexivity]. }
  cbn [price change].
  destruct (SFabs_value _ Fch) as [Fabs Vabs].
  split; [apply SFleb_iff; [assumption|assumption|rewrite Hzlo; exact Lpr]|].
  split; [apply SFleb_iff; [assumption|assumption|rewrite Hzhi; exact Upr]|].
  split.
  - apply SFleb_iff; [assumption|assumption|]. rewrite Vabs, Hzc.
    apply Rabs_le. rewrite opp_IZR in Lch. lra.
  - rewrite Hzb. rewrite minus_IZR in Lpr. rewrite plus_IZR in Upr.
    apply (f_equal IZR) in H100. rewrite !mult_IZR in H100. lra.
Qed.

(** C2. For every symbol of the watch-list and every draw, the price lies
    between 0.98 and 1.02 times the base price, bounds included, both as
    the code computes these products and as real numbers, and the change
    is at most 2% of the base price in absolute value. *)
Theorem price_within_two_percent (sym : string) (rng : nat -> number) (k : nat) :
  In sym WATCHED_SYMBOLS -> is_draw (rng k) = true ->
  exists d,
    fst (getMockMarketData sym rng k) = Quote d /\
    SFleb (decimal 98 2 *! basePrice sym) (price d) = true /\
    SFleb (price d) (decimal 102 2 *! basePrice sym) = true /\
    SFleb (SFabs (change d)) (basePrice sym *! decimal 2 2) = true /\
    (98 / 100 * SF2R (basePrice sym) <= SF2R (price d)
     <= 102 / 100 * SF2R (basePrice sym))%R.
Proof.
  intros Hin Hr. unfold WATCHED_SYMBOLS in Hin. cbn [In] in Hin.
  destruct Hin as [<-|[<-|[<-|[<-|[<-|[]]]]]].
  - apply (within_two_percent_at "^GSPC" 4500 90); try assumption;
      try (vm_compute; reflexivity); try discriminate; lia.
  - apply (within_two_percent_at "^DJI" 35000 700); try assumption;
      try (vm_compute; reflexivity); try discriminate; lia.
  - apply (within_two_percent_at "^IXIC" 14000 280); try assumption;
      try (vm_compute; reflexivity); try discriminate; lia.
  - apply (within_two_percent_at "GC=F" 1900 38); try assumption;
      try (vm_compute; reflexivity); try discriminate; lia.
  - apply (within_two_percent_at "BTC-USD" 45000 900); try assumption;
      try (vm_compute; reflexivity); try discriminate; lia.
Qed.

Lemma sample_rng_draw (n : nat) : is_draw (sample_rng n) = true.
Proof. destruct n; reflexivity. Qed.

Lemma price_within_two_percent_witness :
  exists d,
    fst (getMockMarketData "GC=F" sample_rng 1%nat) = Quote d /\
    SFleb (decimal 98 2 *! of_Z 1900) (price d) = true /\
    SFleb (price d) (decimal 102 2 *! of_Z 1900) = true.
Proof.
  destruct (price_within_two_percent "GC=F" sample_rng 1%nat
              ltac:(cbn; tauto) eq_refl) as (d & H1 & H2 & H3 & _).
  exists d. split; [exact H1|]. split; [exact H2|exact H3].
Defined.

(* ================================================================== *)
(** * The detail analyzer *)

Lemma display_name_own (h : Host) (sym : string) :
  inherited sym = false ->
  display_name h sym =
  match own SYMBOL_NAMES sym with Some name => name | None => sym end.
Proof.
  intros Hi. unfold display_name, lookup. rewrite Hi.
  unfold SYMBOL_NAMES. cbn [own].
  repeat match goal with
         | |- context [String.eqb sym ?x] => destruct (String.eqb sym x)
         end; reflexivity.
Qed.

(** C5. For every symbol that does not name a member of [Object.prototype]
    and all draws, the report is built from one call of the generator and
    one more draw: the volume is an integer from 500000 up to 1499999,
    [marketCap = price * volume], the day range is [price * 0.98] to
    [price * 1.02], the 52 week range [price * 0.9] to [price * 1.1], and
    the lines are, in this order, the header with the display name, Current
    Price, Day Range, 52 Week Range, Volume, and Market Cap in billions
    with two decimals. *)
Theorem analysis_report (h : Host) (sym : string) (rng : nat -> number) (k : nat) :
  inherited sym = false -> is_draw (rng (S k)) = true ->
  exists (data : MarketData) (volume : number) (n : Z),
    getMockMarketData sym rng k = (Quote data, S k) /\
    volume = Math_floor (rng (S k) *! of_Z 1000000) +! of_Z 500000 /\
    to_Z volume = Some n /\ 500000 <= n < 1500000 /\
    let marketCap := price data *! volume in
    let dayLow := price data *! decimal 98 2 in
    let dayHigh := price data *! decimal 102 2 in
    let weekLow := price data *! decimal 9 1 in
    let weekHigh := price data *! decimal 11 1 in
    getMockDetailedAnalysis h sym rng k =
    (Normal
       (String.concat nl
          [ "Analysis for " ++
              match own SYMBOL_NAMES sym with Some name => name | None => sym end ++ ":";
            "Current Price: $" ++ toFixed h (price data) 2;
            "Day Range: $" ++ toFixed h dayLow 2 ++ " - $" ++ toFixed h dayHigh 2;
            "52 Week Range: $" ++ toFixed h weekLow 2 ++ " - $" ++ toFixed h weekHigh 2;
            "Volume: " ++ toLocaleString h volume;
            "Market Cap: $" ++ toFixed h (marketCap /! of_Z 1000000000) 2 ++ "B" ]),
     S (S k)).
Proof.
  intros Hi Hr.
  destruct (volume_bounds (rng (S k)) Hr) as (n & Hn & Hz & _).
  assert (Hl : lookup basePrices sym <> Inherited).
  { intros H. apply lookup_inherited in H. destruct H as [_ H]. congruence. }
  destruct (proj2 (quote_returned_iff sym rng k) Hl) as [data Hd].
  exists data, (volume_of (rng (S k))), n.
  split.
  { rewrite (surjective_pairing (getMockMarketData sym rng k)), Hd.
    rewrite getMockMarketData_eq. reflexivity. }
  split; [reflexivity|]. split; [exact Hz|]. split; [exact Hn|].
  cbv zeta. rewrite getMockDetailedAnalysis_eq, Hd, (display_name_own h sym Hi).
  f_equal. f_equal. unfold stats_of, fixed2. cbn [String.concat].
  rewrite !append_assoc. reflexivity.
Qed.

Lemma analysis_report_witness :
  exists data volume,
    getMockMarketData "BTC-USD" sample_rng 0%nat = (Quote data, 1%nat) /\
    to_Z volume = Some 623456 /\
    fst (getMockDetailedAnalysis sample_host "BTC-USD" sample_rng 0%nat) =
    Normal (String.concat nl
              [ "Analysis for Bitcoin:"; "Current Price: $45000.00";
                "Day Range: $44100.00 - $45900.00";
                "52 Week Range: $40500.00 - $49500.00";
                "Volume: 623456"; "Market Cap: $28.06B" ]).
Proof.
  destruct (analysis_report sample_host "BTC-USD" sample_rng 0%nat eq_refl eq_refl)
    as (data & volume & n & H1 & H2 & H3 & H4 & H5).
  exists data, volume. split; [exact H1|]. split.
  - rewrite H2. vm_compute. reflexivity.
  - vm_compute. reflexivity.
Defined.

(* ================================================================== *)
(** * Submissions *)

Lemma selected_in_table (text sym : string) :
  selected text = Some sym ->
  exists name, In (sym, name) SYMBOL_NAMES /\
               occurs (toLowerCase name) (toLowerCase text).
Proof.
  unfold selected. destruct (find (matches text) SYMBOL_NAMES) as [[s n]|] eqn:Hf;
    [|discriminate].
  intros [= <-]. apply find_some in Hf as [Hin Hm]. exists n. split; [exact Hin|].
  apply includes_spec. exact Hm.
Qed.

Lemma table_not_inherited (sym name : string) :
  In (sym, name) SYMBOL_NAMES ->
  inherited sym = false /\ own SYMBOL_NAMES sym = Some name.
Proof.
  unfold SYMBOL_NAMES. cbn [In]. intros H.
  repeat (destruct H as [H|H]; [inversion H; split; reflexivity|]). contradiction.
Qed.

Lemma respond_cases (h : Host) (text : string) (rng : nat -> number) (k : nat) :
  respond h text rng k = (Normal fallback, k) \/
  exists sym name stats,
    In (sym, name) SYMBOL_NAMES /\
    occurs (toLowerCase name) (toLowerCase text) /\
    respond h text rng k =
    (Normal ("Analysis for " ++ name ++ ":" ++ nl ++ stats), S (S k)).
Proof.
  rewrite respond_selected. destruct (selected text) as [sym|] eqn:Hs; [right|now left].
  destruct (selected_in_table text sym Hs) as (name & Hin & Hocc).
  destruct (table_not_inherited sym name Hin) as [Hi Hown].
  assert (Hl : lookup basePrices sym <> Inherited).
  { intros H. apply lookup_inherited in H. destruct H as [_ H]. congruence. }
  destruct (proj2 (quote_returned_iff sym rng k) Hl) as [d Hd].
  exists sym, name. eexists. split; [exact Hin|]. split; [exact Hocc|].
  rewrite getMockDetailedAnalysis_eq, Hd, (display_name_own h sym Hi), Hown. reflexivity.
Qed.

(** X4. A response is either the fallback message or a report whose header
    names a market of the table, and this market's name occurs, lowercased,
    in the lowercased text. *)
Theorem response_names_mentioned_market (h : Host) (text : string)
        (rng : nat -> number) (k : nat) :
  respond h text rng k = (Normal fallback, k) \/
  exists sym name stats,
    In (sym, name) SYMBOL_NAMES /\
    occurs (toLowerCase name) (toLowerCase text) /\
    respond h text rng k =
    (Normal ("Analysis for " ++ name ++ ":" ++ nl ++ stats), S (S k)).
Proof. exact (respond_cases h text rng k). Qed.

Lemma handleSubmit_nonblank (h : Host) (st : State) (rng : nat -> number) (k : nat) :
  all_whitespace (input st) = false ->
  exists response k',
    respond h (input st) rng k = (Normal response, k') /\
    handleSubmit h st rng k =
    ({| messages := messages st ++ [ {| content := input st; role := user |};
                                     {| content := response; role := assistant |} ];
        input := "";
        marketData := marketData st;
        loading := loading st |}, k').
Proof.
  intros Hw.
  assert (Ht : is_empty (trim (input st)) = false).
  { destruct (is_empty (trim (input st))) eqn:E; [|reflexivity].
    apply trim_empty in E. congruence. }
  unfold handleSubmit. rewrite Ht. unfold bind.
  destruct (respond_cases h (input st) rng k)
    as [Hr|(sym & name & stats & _ & _ & Hr)]; rewrite Hr;
    do 2 eexists; (split; [reflexivity|]);
    cbn [ret messages input marketData loading]; rewrite <- app_assoc; reflexivity.
Qed.

(** X1. Submitting an input that is not all white space appends exactly two
    messages, the input as typed as a user message and then the response as
    an assistant message, clears the input field and leaves the snapshot
    and the loading flag alone; the lookup failure of the analyzer cannot
    happen on this path. *)
Theorem submit_appends_exchange (h : Host) (st : State) (rng : nat -> number) (k : nat) :
  all_whitespace (input st) = false ->
  exists response k',
    respond h (input st) rng k = (Normal response, k') /\
    handleSubmit h st rng k =
    ({| messages := messages st ++ [ {| content := input st; role := user |};
                                     {| content := response; role := assistant |} ];
        input := "";
        marketData := marketData st;
        loading := loading st |}, k').
Proof. exact (handleSubmit_nonblank h st rng k). Qed.

Lemma submit_appends_exchange_witness :
  exists response,
    messages (fst (handleSubmit sample_host
                     {| messages := []; input := "NASDAQ today?"; marketData := [];
                        loading := false |} sample_rng 0%nat))
    = [ {| content := "NASDAQ today?"; role := user |};
        {| content := response; role := assistant |} ].
Proof.
  destruct (submit_appends_exchange sample_host
              {| messages := []; input := "NASDAQ today?"; marketData := [];
                 loading := false |} sample_rng 0%nat eq_refl)
    as (response & k' & _ & H).
  exists response. rewrite H. reflexivity.
Defined.

(** X5. Matching knows no word boundaries: a text that gets a report still
    gets one, not the fallback message, when any text is put before and
    after it. *)
Theorem matching_survives_context (h : Host) (before text after : string)
        (rng : nat -> number) (k : nat) :
  fst (respond h text rng k) <> Normal fallback ->
  fst (respond h (before ++ text ++ after) rng k) <> Normal fallback.
Proof.
  assert (Hlow : forall a b, toLowerCase (a ++ b) = toLowerCase a ++ toLowerCase b).
  { intros a b. induction a as [|c a IH]; cbn; [reflexivity|now rewrite IH]. }
  assert (Hsel : forall t, fst (respond h t rng k) = Normal fallback <-> selected t = None).
  { intros t. rewrite respond_selected. destruct (selected t) as [s|]; [|tauto].
    split; [|discriminate]. intros H.
    destruct (analysis_shape h s rng k) as [Ht|[body Hb]].
    - rewrite Ht in H. discriminate.
    - rewrite Hb in H. inversion H. }
  intros H1 H2. apply H1. apply Hsel. apply Hsel in H2.
  apply selected_none. intros s n Hin (a & b & Hocc).
  apply (proj1 (selected_none _) H2 s n Hin).
  exists (toLowerCase before ++ a), (b ++ toLowerCase after).
  rewrite !Hlow, Hocc, !append_assoc. reflexivity.
Qed.

Lemma matching_survives_context_witness :
  fst (respond sample_host "marigolds" sample_rng 0%nat) <> Normal fallback.
Proof.
  apply (matching_survives_context sample_host "mari" "gold" "s" sample_rng 0%nat).
  vm_compute. discriminate.
Defined.

(* ================================================================== *)
(** * Invariants of a session *)

Lemma exchanges_app (l : list Message) (u a : Message) :
  role u = user -> role a = assistant ->
  exchanges l = true -> exchanges (l ++ [u; a]) = true.
Proof.
  intros Hu Ha.
  assert (H : forall n l, (List.length l <= n)%nat ->
                          exchanges l = true -> exchanges (l ++ [u; a]) = true).
  { induction n as [|n IH]; intros l0 Hlen He.
    - destruct l0; [|cbn in Hlen; lia]. cbn. now rewrite Hu, Ha.
    - destruct l0 as [|x [|y l2]]; [cbn; now rewrite Hu, Ha|discriminate|].
      cbn [exchanges app] in *. destruct (role x); [|discriminate].
      destruct (role y); [discriminate|]. apply IH; [cbn in Hlen; lia|exact He]. }
  exact (H (List.length l) l (le_n _)).
Qed.

Lemma handleSubmit_blank (h : Host) (st : State) (rng : nat -> number) (k : nat) :
  all_whitespace (input st) = true -> handleSubmit h st rng k = (st, k).
Proof.
  intros H. unfold handleSubmit. apply trim_empty in H. rewrite H. reflexivity.
Qed.

Lemma updateMarketData_complete (st : State) (rng : nat -> number) (k : nat) :
  complete (marketData (fst (updateMarketData st rng k))) /\
  messages (fst (updateMarketData st rng k)) = messages st /\
  loading (fst (updateMarketData st rng k)) = false.
Proof.
  destruct (mapM_quotes WATCHED_SYMBOLS rng k watched_not_inherited) as (ds & Hds & Hsym).
  unfold updateMarketData, bind, complete. rewrite Hds.
  cbn [fst ret marketData messages loading].
  split; [|split; reflexivity].
  rewrite map_map. cbn [quote_symbol]. rewrite <- Hsym, map_map. reflexivity.
Qed.

Lemma step_invariant (h : Host) (ev : Event) (st : State) (rng : nat -> number) (k : nat)
      (first : Message) (tail : list Message) :
  messages st = first :: tail -> exchanges tail = true ->
  (marketData st = [] \/ complete (marketData st)) -> loading st = false ->
  let st' := fst (step h ev st rng k) in
  (exists tail', messages st' = first :: tail' /\ exchanges tail' = true) /\
  (marketData st' = [] \/ complete (marketData st')) /\ loading st' = false /\
  (ev = Refresh -> complete (marketData st')) /\
  (complete (marketData st) -> complete (marketData st')).
Proof.
  intros Hm He Hs Hl. destruct ev as [| |value]; cbn [step]; cbv zeta.
  - destruct (all_whitespace (input st)) eqn:Hw.
    + rewrite handleSubmit_blank by exact Hw. cbn [fst].
      split; [now exists tail|]. repeat split; try assumption; [discriminate|tauto].
    + destruct (handleSubmit_nonblank h st rng k Hw) as (resp & k' & _ & ->).
      cbn [fst messages marketData loading]. split.
      * exists (tail ++ [ {| content := input st; role := user |};
                          {| content := resp; role := assistant |} ])%list.
        split; [rewrite Hm; reflexivity|]. now apply exchanges_app.
      * repeat split; try assumption; [discriminate|tauto].
  - destruct (updateMarketData_complete st rng k) as (Hc & Hmsg & Hload).
    split; [exists tail; rewrite Hmsg; tauto|].
    split; [now right|]. split; [exact Hload|tauto].
  - cbn [ret fst setInput messages marketData loading].
    split; [now exists tail|]. repeat split; try assumption; [discriminate|tauto].
Qed.

(** X2. Whatever happens after the page is opened, the history is
    the greeting followed by exchanges of one user message and one assistant
    message, the snapshot is either still empty or has one Quote per watched
    symbol in the order of the watch-list, and the loading flag is off. *)
Theorem session_invariant (h : Host) (evs : list Event) (rng : nat -> number) (k : nat) :
  let st := fst (run h evs initial rng k) in
  (exists tail, messages st = {| content := greeting; role := assistant |} :: tail /\
                exchanges tail = true) /\
  (marketData st = [] \/ complete (marketData st)) /\
  loading st = false.
Proof.
  cbv zeta.
  assert (H : forall evs st k first tail,
             messages st = first :: tail -> exchanges tail = true ->
             (marketData st = [] \/ complete (marketData st)) -> loading st = false ->
             (exists tail', messages (fst (run h evs st rng k)) = first :: tail' /\
                            exchanges tail' = true) /\
             (marketData (fst (run h evs st rng k)) = [] \/
              complete (marketData (fst (run h evs st rng k)))) /\
             loading (fst (run h evs st rng k)) = false).
  { clear evs k. induction evs as [|ev evs IH]; intros st k first tail Hm He Hs Hl.
    - cbn. split; [now exists tail|tauto].
    - cbn [run]. unfold bind.
      pose proof (step_invariant h ev st rng k first tail Hm He Hs Hl) as Hstep.
      cbv zeta in Hstep. destruct (step h ev st rng k) as [st1 k1]. cbn [fst] in Hstep.
      destruct Hstep as ((tail1 & Hm1 & He1) & Hs1 & Hl1 & _).
      exact (IH st1 k1 first tail1 Hm1 He1 Hs1 Hl1). }
  apply (H evs initial k _ []); try reflexivity. now left.
Qed.

(** X3. Once the refresh of the mount has run, the snapshot is complete
    and stays complete. *)
Theorem snapshot_complete_after_mount (h : Host) (evs : list Event)
        (rng : nat -> number) (k : nat) :
  complete (marketData (fst (run h (Refresh :: evs) initial rng k))).
Proof.
  assert (H : forall evs st k, complete (marketData st) ->
                               complete (marketData (fst (run h evs st rng k)))).
  { clear evs k. induction evs as [|ev evs IH]; intros st k Hc; [exact Hc|].
    cbn [run]. unfold bind.
    assert (Hc1 : complete (marketData (fst (step h ev st rng k)))).
    { destruct ev as [| |value]; cbn [step].
      - destruct (all_whitespace (input st)) eqn:Hw.
        + now rewrite handleSubmit_blank.
        + destruct (handleSubmit_nonblank h st rng k Hw) as (resp & k' & _ & ->). exact Hc.
      - exact (proj1 (updateMarketData_complete st rng k)).
      - exact Hc. }
    destruct (step h ev st rng k) as [st1 k1]. exact (IH st1 k1 Hc1). }
  cbn [run]. unfold bind.
  assert (Hc : complete (marketData (fst (step h Refresh initial rng k)))).
  { exact (proj1 (updateMarketData_complete initial rng k)). }
  destruct (step h Refresh initial rng k) as [st1 k1]. exact (H evs st1 k1 Hc).
Qed.

(* ================================================================== *)
(** * Every generated quote *)

(** The base price in use and its 2%, as integers. *)
Lemma base_values (sym : string) :
  exists BP C : Z,
    finite_valid (basePrice sym) = true /\ SF2R (basePrice sym) = IZR BP /\
    finite_valid (basePrice sym *! decimal 2 2) = true /\
    SF2R (basePrice sym *! decimal 2 2) = IZR C /\
    100 * C = 2 * BP /\ 100 <= BP <= 45000.
Proof.
  assert (H : forall v BP C,
             basePrice sym = v ->
             finite_valid v = true -> to_Z v = Some BP ->
             finite_valid (v *! decimal 2 2) = true -> to_Z (v *! decimal 2 2) = Some C ->
             100 * C = 2 * BP -> 100 <= BP <= 45000 ->
             exists BP C : Z,
               finite_valid (basePrice sym) = true /\ SF2R (basePrice sym) = IZR BP /\
               finite_valid (basePrice sym *! decimal 2 2) = true /\
               SF2R (basePrice sym *! decimal 2 2) = IZR C /\
               100 * C = 2 * BP /\ 100 <= BP <= 45000).
  { intros v BP C -> Hf Hz Hfc Hzc H1 H2. exists BP, C.
    apply to_Z_SF2R in Hz, Hzc. tauto. }
  destruct (basePrice_cases sym) as [[Hin _]|[_ Hb]].
  - unfold basePrices in Hin. cbn [In] in Hin.
    destruct Hin as [Hin|[Hin|[Hin|[Hin|[Hin|[]]]]]];
      apply (f_equal snd) in Hin; cbn [snd] in Hin; symmetry in Hin.
    + apply (H _ 4500 90 Hin); try (vm_compute; reflexivity); lia.
    + apply (H _ 35000 700 Hin); try (vm_compute; reflexivity); lia.
    + apply (H _ 14000 280 Hin); try (vm_compute; reflexivity); lia.
    + apply (H _ 1900 38 Hin); try (vm_compute; reflexivity); lia.
    + apply (H _ 45000 900 Hin); try (vm_compute; reflexivity); lia.
  - apply (H _ 100 2 Hb); try (vm_compute; reflexivity); lia.
Qed.

(** Every quote generated from a draw has a finite change and a finite
    price of at least 98 and at most 45900. *)
Lemma generated_quote (sym : string) (rng : nat -> number) (k : nat) :
  lookup basePrices sym <> Inherited -> is_draw (rng k) = true ->
  exists d,
    fst (getMockMarketData sym rng k) = Quote d /\ symbol d = sym /\
    finite_valid (change d) = true /\ finite_valid (price d) = true /\
    (98 <= SF2R (price d) <= 45900)%R.
Proof.
  intros Hl Hr.
  destruct (base_values sym) as (BP & C & Hfb & Hvb & Hfc & Hvc & H100 & HBP).
  destruct (quote_bounds (basePrice sym) (basePrice sym *! decimal 2 2) (rng k) BP C
              Hfb Hvb Hfc Hvc ltac:(lia) ltac:(lia) Hr) as (Fch & _ & Fpr & [Lpr Upr]).
  rewrite getMockMarketData_eq. cbn [fst].
  eexists. split.
  { destruct (lookup basePrices sym); [reflexivity|contradiction|reflexivity]. }
  cbn [price change symbol]. split; [reflexivity|]. split; [exact Fch|]. split; [exact Fpr|].
  rewrite minus_IZR in Lpr. rewrite plus_IZR in Upr.
  assert (H1 : (100 * IZR C = 2 * IZR BP)%R).
  { apply (f_equal IZR) in H100. now rewrite !mult_IZR in H100. }
  assert (H2 : (100 <= IZR BP <= 45000)%R) by (split; apply IZR_le; lia).
  lra.
Qed.

(** X6. A symbol outside the table that names no member of
    [Object.prototype] gets a price within 2% of the base price 100: from
    98 to 102, which are what 0.98 * 100 and 1.02 * 100 evaluate to. *)
Theorem fallback_price_range (sym : string) (rng : nat -> number) (k : nat) :
  ~ In sym WATCHED_SYMBOLS -> inherited sym = false -> is_draw (rng k) = true ->
  exists d,
    fst (getMockMarketData sym rng k) = Quote d /\
    SFleb (of_Z 98) (price d) = true /\ SFleb (price d) (of_Z 102) = true /\
    decimal 98 2 *! of_Z 100 = of_Z 98 /\ decimal 102 2 *! of_Z 100 = of_Z 102.
Proof.
  intros Hnot Hinh Hr.
  destruct (basePrice_cases sym) as [[Hin _]|[Hown Hb]].
  { exfalso. apply Hnot. unfold basePrices in Hin. cbn [In] in Hin.
    unfold WATCHED_SYMBOLS. cbn [In].
    repeat (destruct Hin as [Hin|Hin]; [inversion Hin; tauto|]). contradiction. }
  assert (Hl : lookup basePrices sym <> Inherited).
  { unfold lookup. rewrite Hown, Hinh. discriminate. }
  destruct (within_two_percent_at sym 100 2 rng k Hl) as (d & Hd & H1 & H2 & _);
    try (rewrite Hb; vm_compute; reflexivity); try lia; try assumption.
  exists d. rewrite Hb in H1, H2. split; [exact Hd|].
  split; [exact H1|]. split; [exact H2|]. split; vm_compute; reflexivity.
Qed.

Lemma fallback_price_range_witness :
  exists d, fst (getMockMarketData "TSLA" sample_rng 1%nat) = Quote d /\
            SFleb (of_Z 98) (price d) = true.
Proof.
  destruct (fallback_price_range "TSLA" sample_rng 1%nat) as (d & H1 & H2 & _).
  - cbn. intros H. repeat (destruct H as [H|H]; [discriminate|]). contradiction.
  - reflexivity.
  - reflexivity.
  - exists d. split; assumption.
Defined.

(** X7. In every report made from draws, the price shown lies within the
    day range and within the 52 week range shown with it, and it is
    positive. *)
Theorem price_within_shown_ranges (sym : string) (rng : nat -> number) (k : nat) :
  lookup basePrices sym <> Inherited -> is_draw (rng k) = true ->
  exists d,
    fst (getMockMarketData sym rng k) = Quote d /\
    SFltb (of_Z 0) (price d) = true /\
    SFleb (price d *! decimal 98 2) (price d) = true /\
    SFleb (price d) (price d *! decimal 102 2) = true /\
    SFleb (price d *! decimal 9 1) (price d) = true /\
    SFleb (price d) (price d *! decimal 11 1) = true.
Proof.
  intros Hl Hr.
  destruct (generated_quote sym rng k Hl Hr) as (d & Hd & _ & _ & Fp & [Lp Up]).
  exists d. split; [exact Hd|].
  destruct (of_Z_exact 0 ltac:(lia)) as [F0 V0].
  destruct (of_Z_exact 1 ltac:(lia)) as [F1 V1].
  destruct (of_Z_exact 2 ltac:(lia)) as [F2 V2].
  destruct (of_Z_exact 100000 ltac:(lia)) as [FB VB].
  assert (below : forall c, finite_valid c = true ->
                    SFleb (of_Z 0) c = true -> SFleb c (of_Z 1) = true ->
                    SFleb (price d *! c) (price d) = true).
  { intros c Fc Hc0 Hc1.
    apply (SFleb_iff _ _ F0 Fc) in Hc0. apply (SFleb_iff _ _ Fc F1) in Hc1.
    rewrite V0 in Hc0. rewrite V1 in Hc1.
    pose proof (SFmul_rounded (price d) c Fp Fc) as [Hb _].
    assert (Hx : (SF2R (of_Z 0) <= SF2R (price d) * SF2R c <= SF2R (price d))%R).
    { rewrite V0. pose proof (Rmult_le_pos (SF2R (price d)) (SF2R c) ltac:(lra) Hc0).
      pose proof (Rmult_le_pos (SF2R (price d)) (1 - SF2R c) ltac:(lra) ltac:(lra)).
      split; lra. }
    destruct (Hb (of_Z 0) (price d) F0 Fp Hx) as [Fr [_ Ur]].
    apply SFleb_iff; assumption. }
  assert (above : forall c, finite_valid c = true ->
                    SFleb (of_Z 1) c = true -> SFleb c (of_Z 2) = true ->
                    SFleb (price d) (price d *! c) = true).
  { intros c Fc Hc1 Hc2.
    apply (SFleb_iff _ _ F1 Fc) in Hc1. apply (SFleb_iff _ _ Fc F2) in Hc2.
    rewrite V1 in Hc1. rewrite V2 in Hc2.
    pose proof (SFmul_rounded (price d) c Fp Fc) as [Hb _].
    assert (Hx : (SF2R (price d) <= SF2R (price d) * SF2R c <= SF2R (of_Z 100000))%R).
    { rewrite VB. pose proof (Rmult_le_pos (SF2R (price d)) (SF2R c - 1) ltac:(lra) ltac:(lra)).
      pose proof (Rmult_le_pos (SF2R (price d)) (2 - SF2R c) ltac:(lra) ltac:(lra)).
      split; lra. }
    destruct (Hb (price d) (of_Z 100000) Fp FB Hx) as [Fr [Lr _]].
    apply SFleb_iff; assumption. }
  split; [apply SFltb_iff; [assumption|assumption|rewrite V0; lra]|].
  split; [apply below; vm_compute; reflexivity|].
  split; [apply above; vm_compute; reflexivity|].
  split; [apply below; vm_compute; reflexivity|].
  apply above; vm_compute; reflexivity.
Qed.

Lemma price_within_shown_ranges_witness :
  exists d, fst (getMockMarketData "^IXIC" sample_rng 0%nat) = Quote d /\
            SFleb (price d *! decimal 98 2) (price d) = true.
Proof.
  destruct (price_within_shown_ranges "^IXIC" sample_rng 0%nat) as (d & H1 & _ & H2 & _).
  - discriminate.
  - reflexivity.
  - exists d. split; assumption.
Defined.

(* ================================================================== *)
(** * The market cards *)

Lemma change_sign_shown (h : Host) (data : MarketData) (c : Card) :
  is_finite (change data) = true ->
  render_card h (Quote data) = Normal c ->
  (card_class c = "text-sm text-green-500" /\ prefix "+" (card_change c) = true) \/
  (card_class c = "text-sm text-red-500" /\ prefix "-" (card_change c) = true).
Proof.
  intros Hf Hc. cbn [render_card] in Hc. injection Hc as <-. cbn [card_class card_change].
  unfold ge_zero. change (of_Z 0) with (S754_zero false).
  destruct (change data) as [s| | |[|] m e]; try discriminate; cbn [SFleb SFcompare].
  - left. split; [reflexivity|]. apply prefix_spec. eexists. reflexivity.
  - right. split; [reflexivity|]. apply prefix_spec. eexists. reflexivity.
  - left. split; [reflexivity|]. apply prefix_spec. eexists. reflexivity.
Qed.

(** X8. The card of a watched symbol generated from a draw shows the
    display name of the symbol and an explicit sign: the change is green
    and starts with "+", or red and starts with "-". *)
Theorem card_shows_name_and_sign (h : Host) (sym : string) (rng : nat -> number) (k : nat) :
  In sym WATCHED_SYMBOLS -> is_draw (rng k) = true ->
  exists c name,
    render_card h (fst (getMockMarketData sym rng k)) = Normal c /\
    In (sym, name) SYMBOL_NAMES /\ card_name c = Some name /\
    ((card_class c = "text-sm text-green-500" /\ prefix "+" (card_change c) = true) \/
     (card_class c = "text-sm text-red-500" /\ prefix "-" (card_change c) = true)).
Proof.
  intros Hin Hr.
  destruct (generated_quote sym rng k (watched_not_inherited sym Hin) Hr)
    as (d & Hd & Hsym & Fc & _).
  rewrite Hd.
  assert (Hname : exists name, In (sym, name) SYMBOL_NAMES /\
                               lookup SYMBOL_NAMES sym = Own name).
  { unfold WATCHED_SYMBOLS in Hin. cbn [In] in Hin.
    destruct Hin as [<-|[<-|[<-|[<-|[<-|[]]]]]]; eexists; (split; [|reflexivity]);
      cbn; tauto. }
  destruct Hname as (name & Hn & Hlk).
  eexists. exists name. split; [reflexivity|]. split; [exact Hn|].
  split; [cbn [card_name]; now rewrite Hsym, Hlk|].
  apply (change_sign_shown h d); [|reflexivity].
  unfold finite_valid in Fc. apply andb_true_iff in Fc. tauto.
Qed.

Lemma card_shows_name_and_sign_witness :
  exists c, render_card sample_host (fst (getMockMarketData "GC=F" sample_rng 1%nat)) = Normal c /\
            card_name c = Some "Gold".
Proof.
  destruct (card_shows_name_and_sign sample_host "GC=F" sample_rng 1%nat)
    as (c & name & H1 & H2 & H3 & _).
  - cbn. tauto.
  - reflexivity.
  - exists c. split; [exact H1|]. rewrite H3. f_equal.
    cbn [SYMBOL_NAMES In] in H2.
    repeat (destruct H2 as [H2|H2]; [inversion H2; reflexivity || discriminate|]).
    contradiction.
Defined.
